(** * BFoRe map-based likelihood ([bfore/maplike.py]) in Rocq

    A shallow embedding of the class [MapLike]: the parameter check run by
    the constructor, the region generator [split_data], the mixing-matrix
    builder [f_matrix], the amplitude estimator and the goodness-of-fit
    statistics, followed by the properties the specification states about
    them.

    Conventions.
    - NumPy [float64] entries are modelled by exact rationals ([Qc], the
      canonical rationals, so that equality is Leibniz equality).  Rounding
      is outside the model.
    - A NumPy array is its [shape] together with its entries as nested rows.
    - A Python exception is a value of [Py.exn]; a call that may raise
      returns a [Py.result]. *)

From Stdlib Require Import ZArith QArith Qcanon Qcabs Lia Permutation.
From stdpp Require Import base option list gmap strings.

(** [[x]] is the one-element list, not the absolute value of [x]. *)
Disable Notation "[ q ]" : Qc_scope.
Open Scope Qc_scope.

(** ** The Python runtime: exceptions, results, generators *)

Module Py.

(** The exceptions the modelled code can raise.  [check_parameters]
    documents its failure as [ConfigError] and realises it as
    [print(msg); exit()]; the message printed is kept. *)
Inductive exn : Type :=
| ConfigError (msg : string)
| NameError (name : string)
| UnboundLocalError (name : string)
| LinAlgError
| ValueError
| TypeError
| IndexError
| ZeroDivisionError
| IOError (path : string)
| ModelError (msg : string).

Inductive result (A : Type) : Type :=
| Ok (a : A)
| Err (e : exn).
Arguments Ok {A} a.
Arguments Err {A} e.

Definition bind {A B} (m : result A) (k : A → result B) : result B :=
  match m with
  | Ok a => k a
  | Err e => Err e
  end.

(** A generator run to exhaustion: the items it yielded, in order, and
    the exception that ended it ([None] for a normal [StopIteration]). *)
Record gen (A : Type) : Type := Gen {
  yielded : list A;
  raised : option exn
}.
Arguments Gen {A} yielded raised.
Arguments yielded {A} g.
Arguments raised {A} g.

(** [for x in xs: yield f(x)], where evaluating [f x] may raise. *)
Fixpoint yield_each {A B} (f : A → result B) (xs : list A) : gen B :=
  match xs with
  | [] => Gen [] None
  | x :: xs' =>
      match f x with
      | Ok b => let g := yield_each f xs' in Gen (b :: yielded g) (raised g)
      | Err e => Gen [] (Some e)
      end
  end.

(** [[f(x) for x in xs]] with a body that may raise. *)
Fixpoint map_result {A B} (f : A → result B) (xs : list A) : result (list B) :=
  match xs with
  | [] => Ok []
  | x :: xs' =>
      bind (f x) (λ b, bind (map_result f xs') (λ bs, Ok (b :: bs)))
  end.

End Py.

Import Py.

#[global] Instance result_ret : MRet result := @Ok.
#[global] Instance result_bind : MBind result := λ A B k m, Py.bind m k.

#[global] Instance exn_eq_dec : EqDecision exn.
Proof. solve_decision. Defined.

#[global] Instance result_eq_dec {A} `{EqDecision A} : EqDecision (result A).
Proof. solve_decision. Defined.

(** ** NumPy arrays of rationals *)

Definition q (z : Z) : Qc := Q2Qc (inject_Z z).

Module np.

Abbreviation rows1 := (list Qc).
Abbreviation rows2 := (list (list Qc)).
Abbreviation rows3 := (list (list (list Qc))).
Abbreviation rows4 := (list (list (list (list Qc)))).

Record array3 : Type := Array3 {
  shape3 : nat * nat * nat;
  data3 : rows3
}.

Record array4 : Type := Array4 {
  shape4 : nat * nat * nat * nat;
  data4 : rows4
}.

Definition get1 (a : rows1) (i : nat) : Qc := nth i a 0.
Definition get2 (a : rows2) (i j : nat) : Qc := get1 (nth i a []) j.
Definition get3 (a : rows3) (i j k : nat) : Qc := get2 (nth i a []) j k.
Definition get4 (a : rows4) (i j k l : nat) : Qc := get3 (nth i a []) j k l.

Definition at3 (a : array3) := get3 (data3 a).
Definition at4 (a : array4) := get4 (data4 a).

(** [tab n f] is the row [f 0, ..., f (n-1)]; [sum n f] adds it up. *)
Definition tab {A} (n : nat) (f : nat → A) : list A := map f (seq 0 n).
Definition sum (n : nat) (f : nat → Qc) : Qc := foldr Qcplus 0 (tab n f).

(** The entries agree with the shape. *)
Definition rect1 (n : nat) (a : rows1) : Prop := length a = n.
Definition rect2 (m n : nat) (a : rows2) : Prop :=
  length a = m ∧ Forall (rect1 n) a.
Definition rect3 (l m n : nat) (a : rows3) : Prop :=
  length a = l ∧ Forall (rect2 m n) a.
Definition rect4 (k l m n : nat) (a : rows4) : Prop :=
  length a = k ∧ Forall (rect3 l m n) a.

Definition wf3 (a : array3) : Prop :=
  let '(l, m, n) := shape3 a in rect3 l m n (data3 a).
Definition wf4 (a : array4) : Prop :=
  let '(k, l, m, n) := shape4 a in rect4 k l m n (data4 a).

End np.

Import np.

#[global] Instance array3_eq_dec : EqDecision array3.
Proof. solve_decision. Defined.
#[global] Instance array4_eq_dec : EqDecision array4.
Proof. solve_decision. Defined.


(** ** healpy

    The functions of the HEALPix library the class calls, after the
    library's reference algorithm.  On a list of indices [nest2ring] works
    entry by entry.  It is given on the library's domain: a resolution
    that is a power of two and a list, not empty, of indices within
    [range(npix)].  Outside that domain healpy raises ([ValueError] for
    another resolution, [TypeError] on an empty list) or answers [-1],
    where the function here, being total, answers some number: what is
    proved of a call is proved within the domain. *)

Module hp.

Open Scope Z_scope.

Definition nside2npix (nside : Z) : Z := 12 * nside * nside.

(** [hp.npix2nside(npix)]: the resolution with [npix] pixels, or
    [ValueError] when [npix] is not [12 * nside ** 2]. *)
Definition npix2nside (npix : Z) : result Z :=
  let nside := Z.sqrt (npix / 12) in
  if decide (nside2npix nside = npix) then Ok nside else Err ValueError.

(** [hp.get_nside(m)] on a one-dimensional map [m] of [npix] pixels.  The
    library first asks for the type of the map, which raises [TypeError]
    on a map without pixels and on a pixel count that is not
    [12 * nside ** 2]; what [npix2nside] gets is a pixel count that passed
    that test. *)
Definition get_nside (npix : Z) : result Z :=
  if decide (npix = 0) then Err TypeError
  else match npix2nside npix with
       | Ok nside => Ok nside
       | Err _ => Err TypeError
       end.

Definition jrll : list Z := [2; 2; 2; 2; 3; 3; 3; 3; 4; 4; 4; 4].
Definition jpll : list Z := [1; 3; 5; 7; 0; 2; 4; 6; 1; 3; 5; 7].

(** The even bits of [p] as one number and the odd bits as another. *)
Fixpoint deinterleave (p : positive) : Z * Z :=
  match p with
  | xH => (1, 0)
  | xO xH => (0, 1)
  | xI xH => (1, 1)
  | xO (xO p') => let '(x, y) := deinterleave p' in (2 * x, 2 * y)
  | xI (xO p') => let '(x, y) := deinterleave p' in (2 * x + 1, 2 * y)
  | xO (xI p') => let '(x, y) := deinterleave p' in (2 * x, 2 * y + 1)
  | xI (xI p') => let '(x, y) := deinterleave p' in (2 * x + 1, 2 * y + 1)
  end.

Definition nest2xy (ipf : Z) : Z * Z :=
  match ipf with
  | Zpos p => deinterleave p
  | _ => (0, 0)
  end.

(** Nested index to ring index at resolution [nside]. *)
Definition nest2ring (nside ipnest : Z) : Z :=
  let npface := nside * nside in
  let face := ipnest / npface in
  let '(ix, iy) := nest2xy (ipnest mod npface) in
  let nl4 := 4 * nside in
  let jr := nth (Z.to_nat face) jrll 0 * nside - ix - iy - 1 in
  let '(nr, n_before, kshift) :=
    if decide (jr < nside) then (jr, 2 * jr * (jr - 1), 0)
    else if decide (jr > 3 * nside) then
      let nr := nl4 - jr in
      (nr, nside2npix nside - 2 * (nr + 1) * nr, 0)
    else
      (nside, 2 * nside * (nside - 1) + (jr - nside) * nl4,
       (jr - nside) mod 2) in
  let jp := (nth (Z.to_nat face) jpll 0 * nr + ix - iy + 1 + kshift) / 2 in
  let jp := if decide (jp > nl4) then jp - nl4
            else if decide (jp < 1) then jp + nl4 else jp in
  n_before + jp - 1.

End hp.

(** Python's [range(start, stop)]. *)
Definition range (start stop : Z) : list Z := seqZ start (stop - start).

(** ** NumPy operations used by the class *)

Module npops.

(** *** Fancy indexing [a[:, :, inds]] *)

Definition norm_index (n : nat) (i : Z) : result nat :=
  let len := Z.of_nat n in
  if decide (0 ≤ i < len)%Z then Ok (Z.to_nat i)
  else if decide (- len ≤ i < 0)%Z then Ok (Z.to_nat (len + i))
  else Err IndexError.

Definition take_pixels (a : array3) (inds : list Z) : result array3 :=
  let '(nf, np, npix) := shape3 a in
  js ← map_result (norm_index npix) inds;
  Ok (Array3 (nf, np, length js)
             (map (map (λ r, map (get1 r) js)) (data3 a))).

(** Number of entries, [len(a.flatten())]. *)
Definition size3 (a : array3) : nat :=
  let '(l, m, n) := shape3 a in (l * m * n)%nat.

(** *** [einsum]

    Each contraction the class writes is one definition, named by its
    subscripts.  An index that occurs in two operands must have the same
    length in both, otherwise NumPy raises [ValueError] (its broadcasting
    of axes of length one is not modelled). *)

(** ["ijk,ljk->jilk"] *)
Definition einsum_ijk_ljk_jilk (a b : array3) : result array4 :=
  let '(ni, nj, nk) := shape3 a in
  let '(nl, nj', nk') := shape3 b in
  if decide (nj = nj' ∧ nk = nk') then
    Ok (Array4 (nj, ni, nl, nk)
          (tab nj (λ j, tab ni (λ i, tab nl (λ l, tab nk (λ k,
             at3 a i j k * at3 b l j k))))))
  else Err ValueError.

(** ["ijkl,lin->injk"] *)
Definition einsum_ijkl_lin_injk (a : array4) (b : array3) : result array4 :=
  let '(ni, nj, nk, nl) := shape4 a in
  let '(nl', ni', nn) := shape3 b in
  if decide (nl = nl' ∧ ni = ni') then
    Ok (Array4 (ni, nn, nj, nk)
          (tab ni (λ i, tab nn (λ n, tab nj (λ j, tab nk (λ k,
             sum nl (λ l, at4 a i j k l * at3 b l i n)))))))
  else Err ValueError.

(** ["jik,kil,kil->ilj"] *)
Definition einsum_jik_kil_kil_ilj (a b c : array3) : result array3 :=
  let '(nj, ni, nk) := shape3 a in
  let '(nk', ni', nl) := shape3 b in
  let '(nk'', ni'', nl') := shape3 c in
  if decide (nk = nk' ∧ nk = nk'' ∧ ni = ni' ∧ ni = ni'' ∧ nl = nl') then
    Ok (Array3 (ni, nl, nj)
          (tab ni (λ i, tab nl (λ l, tab nj (λ j,
             sum nk (λ k, at3 a j i k * at3 b k i l * at3 c k i l))))))
  else Err ValueError.

(** ["ijk,jli->kjl"] *)
Definition einsum_ijk_jli_kjl (a b : array3) : result array3 :=
  let '(ni, nj, nk) := shape3 a in
  let '(nj', nl, ni') := shape3 b in
  if decide (ni = ni' ∧ nj = nj') then
    Ok (Array3 (nk, nj, nl)
          (tab nk (λ k, tab nj (λ j, tab nl (λ l,
             sum ni (λ i, at3 a i j k * at3 b j l i))))))
  else Err ValueError.

(** ["ijk,ijk,ijk->"] *)
Definition einsum_ijk_ijk_ijk (a b c : array3) : result Qc :=
  let '(ni, nj, nk) := shape3 a in
  if decide (shape3 b = shape3 a ∧ shape3 c = shape3 a) then
    Ok (sum ni (λ i, sum nj (λ j, sum nk (λ k,
          at3 a i j k * at3 b i j k * at3 c i j k))))
  else Err ValueError.

(** ["ijk,ijkl,ijl->"] *)
Definition einsum_ijk_ijkl_ijl (a : array3) (m : array4) (c : array3)
  : result Qc :=
  let '(ni, nj, nk) := shape3 a in
  let '(ni', nj', nk', nl) := shape4 m in
  let '(ni'', nj'', nl') := shape3 c in
  if decide (ni = ni' ∧ ni = ni'' ∧ nj = nj' ∧ nj = nj'' ∧ nk = nk'
             ∧ nl = nl') then
    Ok (sum ni (λ i, sum nj (λ j, sum nk (λ k, sum nl (λ l,
          at3 a i j k * at4 m i j k l * at3 c i j l)))))
  else Err ValueError.

(** [a - b] for two arrays of one shape. *)
Definition sub3 (a b : array3) : result array3 :=
  let '(ni, nj, nk) := shape3 a in
  if decide (shape3 b = shape3 a) then
    Ok (Array3 (ni, nj, nk)
          (tab ni (λ i, tab nj (λ j, tab nk (λ k,
             at3 a i j k - at3 b i j k)))))
  else Err ValueError.

(** *** [numpy.linalg.solve]

    LAPACK's [gesv] in exact arithmetic: elimination with partial
    pivoting on the augmented rows [(a_i, b_i)], one unknown at a time;
    an all-zero pivot column is [LinAlgError] (singular matrix). *)

Abbreviation eqn := (list Qc * Qc)%type.

Definition dot (u v : rows1) : Qc :=
  foldr Qcplus 0 (zip_with Qcmult u v).

Definition lead (e : eqn) : Qc := hd 0 e.1.

(** Index of the first entry of largest absolute value. *)
Fixpoint iamax (col : list Qc) : nat :=
  match col with
  | [] => O
  | x :: xs =>
      let j := iamax xs in
      if decide (Qcabs (nth j xs 0) ≤ Qcabs x) then O else S j
  end.

(** The pivot equation, and the others after the row swap. *)
Definition pivot (sys : list eqn) : option (eqn * list eqn) :=
  match sys with
  | [] => None
  | e0 :: es =>
      match iamax (map lead sys) with
      | O => if decide (lead e0 = 0) then None else Some (e0, es)
      | S p =>
          match es !! p with
          | Some ep =>
              if decide (lead ep = 0) then None
              else Some (ep, <[p := e0]> es)
          | None => None
          end
      end
  end.

(** Subtract the multiple of the pivot equation [(a :: row, c)] that
    clears the leading coefficient of [e]. *)
Definition eliminate (a : Qc) (row : rows1) (c : Qc) (e : eqn) : eqn :=
  let m := lead e / a in
  (zip_with (λ x y, x - m * y) (tail e.1) row, e.2 - m * c).

Fixpoint gesv (n : nat) (sys : list eqn) : result rows1 :=
  match n with
  | O => Ok []
  | S n' =>
      match pivot sys with
      | Some ((a :: row, c), rest) =>
          xs ← gesv n' (map (eliminate a row c) rest);
          Ok ((c - dot row xs) / a :: xs)
      | _ => Err LinAlgError
      end
  end.

(** One system [m x = v] with [m] of shape [(n, n)]. *)
Definition solve1 (n : nat) (m : rows2) (v : rows1) : result rows1 :=
  gesv n (zip m v).

(** [numpy.linalg.solve(a, b)] for a stack [a] of shape [(p, x, n, n)]
    and [b] of shape [(p, x, n)]: having one axis less than [a], [b] is a
    stack of vectors (NumPy 1.x), and the systems are solved one by one. *)
Definition linalg_solve (a : array4) (b : array3) : result array3 :=
  let '(np, nx, n, n') := shape4 a in
  if decide (n = n') then
    if decide (shape3 b = (np, nx, n)) then
      rows ← map_result (λ i,
                map_result (λ l,
                  solve1 n (nth l (nth i (data4 a) []) [])
                           (nth l (nth i (data3 b) []) []))
                  (seq 0 nx))
                (seq 0 np);
      Ok (Array3 (np, nx, n) rows)
    else Err ValueError
  else Err LinAlgError.

End npops.

Import npops.

(** ** Collaborators of the class *)

(** The sky model ([bfore/skymodel.py], not among the sources) enters as a
    parameter, through the two methods the class calls: the names of the
    parameters it needs and its response [fnu(nus, params)], an array of
    shape [(N_comp, N_pol, N_freq)], or whatever error the model raises. *)
Record SkyModel : Type := {
  get_param_names : list string;
  fnu : list Qc → gmap string Qc → result array3
}.

(** The files behind [hp.read_map(path, field=(0, 1, 2))]: what the call
    returns for a path, the three maps stored there, or the error it raises
    on reading it.  The library rejects a file whose maps do not have
    [12 * nside ** 2] pixels while it reads it: for such a path the entry
    is that error. *)
Abbreviation filesystem := (string → result rows2).

(** The argument [ipix] of [split_data], as far as the method looks at it. *)
Inductive pyval : Type :=
| PyNone
| PyBool (b : bool)
| PyInt (z : Z)
| PyList (items : list Z)
| PyTuple (items : list Z)
| PyRange (start stop : Z)
| NpInt64 (z : Z).

(** [isinstance(v, int)]: [bool] is a subclass of [int]. *)
Definition isinstance_int (v : pyval) : option Z :=
  match v with
  | PyInt z => Some z
  | PyBool b => Some (if b then 1 else 0)%Z
  | _ => None
  end.

(** [isinstance(v, list)] *)
Definition isinstance_list (v : pyval) : option (list Z) :=
  match v with
  | PyList items => Some items
  | _ => None
  end.

(** A name that is bound neither in the function nor in the module
    ([np], [hp], [deepcopy], [SkyModel], [InstrumentModel], [stats],
    [MapLike], [read_hpix_maps] are the module's globals). *)
Definition unbound_global (name : string) : result array3 :=
  Err (NameError name).

(** ** Input and output: which files were read *)

Module IO.

Definition io (A : Type) : Type := list string → result A * list string.

Definition ret {A} (a : A) : io A := λ log, (Ok a, log).

Definition bind {A B} (m : io A) (k : A → io B) : io B :=
  λ log,
    match m log with
    | (Ok a, log') => k a log'
    | (Err e, log') => (Err e, log')
    end.

Definition lift {A} (r : result A) : io A := λ log, (r, log).

Definition read_map (fs : filesystem) (path : string) : io rows2 :=
  λ log, (fs path, log ++ [path]).

Fixpoint for_each {A B} (f : A → io B) (xs : list A) : io (list B) :=
  match xs with
  | [] => ret []
  | x :: xs' => bind (f x) (λ b, bind (for_each f xs') (λ bs, ret (b :: bs)))
  end.

Definition run {A} (m : io A) : result A * list string := m [].

End IO.

Notation "'do' x <- m ; k" := (IO.bind m (λ x, k))
  (at level 10, x name, m at level 100, k at level 200, only parsing).

(** ** The class [MapLike] *)

(** [config_dict], whose entries become attributes of the object. *)
Record Config : Type := {
  fixed_pars : gmap string Qc;
  var_pars : list string;
  nus : list Qc;
  nside_spec : Z;
  fpaths_mean : list string;
  fpaths_vars : list string
}.

Record MapLike : Type := {
  sky : SkyModel;
  config : Config;
  data_mean : array3;
  data_vars : array3;
  nside_base : Z
}.

Definition check_parameters (sky : SkyModel) (cfg : Config) : result unit :=
  if existsb (λ par, bool_decide (is_Some (fixed_pars cfg !! par)))
             (var_pars cfg)
  then Err (ConfigError
              "Check parameter not in both fixed and variable parameters.")
  else
    let model_pars : gset string := list_to_set (get_param_names sky) in
    let config_pars : gset string := dom (fixed_pars cfg) in
    let config_pars := config_pars ∪ list_to_set (var_pars cfg) in
    if negb (bool_decide (model_pars = config_pars))
    then Err (ConfigError
                "Parameter mismatch between model and MapLike configuration")
    else Ok ().

(** [np.array(list_of_maps)]: the maps stacked along a new first axis. *)
Definition np_array (ms : list rows2) : result array3 :=
  match ms with
  | [] => Ok (Array3 (0, 0, 0)%nat [])
  | m :: _ =>
      let nrow := length m in
      let ncol := length (hd [] m) in
      if forallb (λ m', bool_decide (length m' = nrow)
                        && forallb (λ r, bool_decide (length r = ncol)) m') ms
      then Ok (Array3 (length ms, nrow, ncol) ms)
      else Err ValueError
  end.

Definition read_hpix_maps (fs : filesystem) (fpaths : list string)
  : IO.io array3 :=
  do maps <- IO.for_each (IO.read_map fs) fpaths;
  IO.lift (np_array maps).

(** [hp.get_nside(a[0][0])] *)
Definition get_nside_00 (a : array3) : result Z :=
  let '(nf, np, npix) := shape3 a in
  if decide (nf = 0 ∨ np = 0)%nat then Err IndexError
  else hp.get_nside (Z.of_nat npix).

Definition read_data (fs : filesystem) (cfg : Config)
  : IO.io (array3 * array3 * Z) :=
  do data_mean <- read_hpix_maps fs (fpaths_mean cfg);
  do data_vars <- read_hpix_maps fs (fpaths_vars cfg);
  do nside_base <- IO.lift (get_nside_00 data_mean);
  IO.ret (data_mean, data_vars, nside_base).

(** [MapLike.__init__(config_dict, skymodel)] *)
Definition init (fs : filesystem) (cfg : Config) (skymodel : SkyModel)
  : IO.io MapLike :=
  do _ <- IO.lift (check_parameters skymodel cfg);
  do d <- read_data fs cfg;
  IO.ret {| sky := skymodel; config := cfg;
            data_mean := d.1.1; data_vars := d.1.2; nside_base := d.2 |}.

(** The pixels of region [i]: [hp.nest2ring(nside_base, range(...))]. *)
Definition region_inds (nside_base nside_sub i : Z) : list Z :=
  map (hp.nest2ring nside_base) (range (i * nside_sub) ((i + 1) * nside_sub)).

(** [int(npix_base / npix_spec)] *)
Definition int_div (a b : Z) : result Z :=
  if decide (b = 0%Z) then Err ZeroDivisionError else Ok (Z.quot a b).

Definition split_data (self : MapLike) (ipix : pyval)
  : gen (array3 * array3) :=
  let npix_spec := hp.nside2npix (nside_spec (config self)) in
  let npix_base := hp.nside2npix (nside_base self) in
  match int_div npix_base npix_spec with
  | Err e => Gen [] (Some e)
  | Ok nside_sub =>
      let ipixs : option (list Z) :=
        match ipix with
        | PyNone => Some (range 0 npix_spec)
        | _ =>
            let ipixs : option (list Z) := None in
            let ipixs := match isinstance_int ipix with
                         | Some z => Some [z]
                         | None => ipixs
                         end in
            match isinstance_list ipix with
            | Some items => Some items
            | None => ipixs
            end
        end in
      match ipixs with
      | None => Gen [] (Some (UnboundLocalError "ipixs"))
      | Some ipixs =>
          yield_each (λ i,
            let inds := region_inds (nside_base self) nside_sub i in
            mean ← take_pixels (data_mean self) inds;
            vars ← take_pixels (data_vars self) inds;
            Ok (mean, vars)) ipixs
      end
  end.

(** The dictionary handed to the sky model: the variable names zipped with
    the values, then updated with the fixed parameters. *)
Definition spec_params_dict (cfg : Config) (var_pars_list : list Qc)
  : gmap string Qc :=
  let spec_params :=
    foldl (λ d kv, <[kv.1 := kv.2]> d) ∅ (zip (var_pars cfg) var_pars_list) in
  fixed_pars cfg ∪ spec_params.

Definition f_matrix (self : MapLike) (var_pars_list : list Qc)
  : result array3 :=
  fnu (sky self) (nus (config self))
      (spec_params_dict (config self) var_pars_list).

(** The estimator and the statistics.  [spec_params] is the list of values
    the methods hand to [f_matrix]; the arguments [inst_params],
    [volume_prior] and [lnprior] are accepted and never used, and are left
    out. *)

(** An optional array argument: the caller's, or computed now. *)
Definition or_compute {A} (given : option A) (compute : result A) : result A :=
  match given with
  | Some a => Ok a
  | None => compute
  end.

Definition get_amplitude_covariance (self : MapLike) (n_ivar_map : array3)
    (spec_params : list Qc) (f_matrix_arg : option array3) : result array4 :=
  f_matrix ← or_compute f_matrix_arg (f_matrix self spec_params);
  f_mat_outer ← einsum_ijk_ljk_jilk f_matrix f_matrix;
  einsum_ijkl_lin_injk f_mat_outer n_ivar_map.

Definition get_amplitude_mean (self : MapLike) (d_map n_ivar_map : array3)
    (spec_params : list Qc) (f_matrix_arg : option array3)
    (nt_inv_matrix : option array4) : result array3 :=
  f_matrix ← or_compute f_matrix_arg (f_matrix self spec_params);
  nt_inv_matrix ← or_compute nt_inv_matrix
    (get_amplitude_covariance self n_ivar_map spec_params (Some f_matrix));
  y ← einsum_jik_kil_kil_ilj f_matrix n_ivar_map d_map;
  linalg_solve nt_inv_matrix y.

Definition marginal_spectral_likelihood (self : MapLike)
    (spec_params : list Qc) (d_map n_ivar_map : array3) : result Qc :=
  f_matrix ← f_matrix self spec_params;
  amp_covar_matrix ←
    get_amplitude_covariance self n_ivar_map spec_params (Some f_matrix);
  amp_mean ← get_amplitude_mean self d_map n_ivar_map spec_params
                (Some f_matrix) (Some amp_covar_matrix);
  einsum_ijk_ijkl_ijl amp_mean amp_covar_matrix amp_mean.

(** [len(d_map.flatten()) - len(self.var_pars) - len(amp_mean.flatten())] *)
Definition dof_of (self : MapLike) (d_map amp_mean : array3) : Z :=
  (Z.of_nat (size3 d_map) - Z.of_nat (length (var_pars (config self)))
   - Z.of_nat (size3 amp_mean))%Z.

Definition chi2 (self : MapLike) (spec_params : list Qc)
    (d_map n_ivar_map : array3) (f_matrix_arg : option array3) : result Qc :=
  f_matrix ← or_compute f_matrix_arg (f_matrix self spec_params);
  amp_mean ← get_amplitude_mean self d_map n_ivar_map spec_params None None;
  proj ← einsum_ijk_jli_kjl f_matrix amp_mean;
  res ← sub3 d_map proj;
  let dof := dof_of self d_map amp_mean in
  einsum_ijk_ijk_ijk res n_ivar_map res.

(** In [chi2perdof] and [pval] the name [amp_mean] is never assigned, so
    the last line of either method is never reached. *)
Definition chi2perdof (self : MapLike) (spec_params : list Qc)
    (d_map n_ivar_map : array3) (f_matrix_arg : option array3) : result Qc :=
  chi2 ← chi2 self spec_params d_map n_ivar_map f_matrix_arg;
  amp_mean ← unbound_global "amp_mean";
  let dof := dof_of self d_map amp_mean in
  Ok (chi2 / q dof).

(** [cdf] is [scipy.stats.chi2.cdf]. *)
Definition pval (cdf : Qc → Z → Qc) (self : MapLike) (spec_params : list Qc)
    (d_map n_ivar_map : array3) (f_matrix_arg : option array3) : result Qc :=
  chi2 ← chi2 self spec_params d_map n_ivar_map f_matrix_arg;
  amp_mean ← unbound_global "amp_mean";
  let dof := dof_of self d_map amp_mean in
  Ok (1 - cdf chi2 dof).

(** ** The notions the specification speaks in *)

(** [m x] for one matrix and one vector. *)
Definition mat_vec (m : rows2) (x : rows1) : rows1 := map (λ r, dot r x) m.

(** The matrix and the vector at polarization [i] and pixel [l]. *)
Definition slice4 (a : array4) (i l : nat) : rows2 := nth l (nth i (data4 a) []) [].
Definition slice3 (a : array3) (i l : nat) : rows1 := nth l (nth i (data3 a) []) [].

(** [m] sends some non-zero vector of length [n] to zero. *)
Definition singular (n : nat) (m : rows2) : Prop :=
  ∃ v, length v = n ∧ v ≠ replicate n 0 ∧ mat_vec m v = replicate (length m) 0.

(** [x] is the one solution of [m x = b]. *)
Definition the_solution (n : nat) (m : rows2) (b x : rows1) : Prop :=
  mat_vec m x = b ∧ ∀ x', length x' = n → mat_vec m x' = b → x' = x.

(** [xs] satisfies the equation [e]; [v] is sent to zero by its row;
    [n] equations in [n] unknowns. *)
Definition sat (xs : rows1) (e : eqn) : Prop := dot e.1 xs = e.2.
Definition kills (v : rows1) (e : eqn) : Prop := dot e.1 v = 0.
Definition square (n : nat) (sys : list eqn) : Prop :=
  length sys = n ∧ Forall (λ e, length e.1 = n) sys.

(** The joint contraction of the mixing matrix, the inverse noise variance
    and the data over the frequency axis, at polarization [i] and pixel
    [l]: one entry per component. *)
Definition weighted_data (f_matrix n_ivar d : array3) (i l : nat) : rows1 :=
  let '(nc, _, nf) := shape3 f_matrix in
  tab nc (λ j, sum nf (λ k,
    at3 f_matrix j i k * at3 n_ivar k i l * at3 d k i l)).

(** The information matrix at polarization [i] and pixel [l]: the outer
    product of the mixing matrix with itself, weighted by the inverse noise
    variance and summed over frequency. *)
Definition info_matrix (f_matrix n_ivar : array3) (i l : nat) : rows2 :=
  let '(nc, _, nf) := shape3 f_matrix in
  tab nc (λ j, tab nc (λ k, sum nf (λ f,
    at3 f_matrix j i f * at3 f_matrix k i f * at3 n_ivar f i l))).

(** The array of all information matrices, of shape
    [(N_pol, N_pix, N_comp, N_comp)]. *)
Definition covariance_of (f_matrix n_ivar : array3) : array4 :=
  let '(nc, np, _) := shape3 f_matrix in
  let '(_, _, nx) := shape3 n_ivar in
  Array4 (np, nx, nc, nc)
    (tab np (λ i, tab nx (λ l, info_matrix f_matrix n_ivar i l))).

(** [x^T m x] *)
Definition quad_form (x : rows1) (m : rows2) : Qc := dot x (mat_vec m x).

(** The three sets of names the constructor compares. *)
Definition fixed_names (cfg : Config) : gset string := dom (fixed_pars cfg).
Definition var_names (cfg : Config) : gset string :=
  list_to_set (var_pars cfg).
Definition required_names (skymodel : SkyModel) : gset string :=
  list_to_set (get_param_names skymodel).

(** The object [__init__] leaves behind once the data are read. *)
Definition constructed (skymodel : SkyModel) (cfg : Config)
    (d : array3 * array3 * Z) : MapLike :=
  {| sky := skymodel; config := cfg;
     data_mean := d.1.1; data_vars := d.1.2; nside_base := d.2 |}.

(** The entries of [a] at the pixels [inds], for indices within the pixel
    axis: what [a[:, :, inds]] holds. *)
Definition pixels_at (a : array3) (inds : list Z) : array3 :=
  let '(nf, np, _) := shape3 a in
  Array3 (nf, np, length inds)
    (map (map (λ r, map (λ i, get1 r (Z.to_nat i)) inds)) (data3 a)).

(** Pixel counts and group size of an object. *)
Definition npix_spec (self : MapLike) : Z :=
  hp.nside2npix (nside_spec (config self)).
Definition npix_base (self : MapLike) : Z := hp.nside2npix (nside_base self).
Definition group_size (self : MapLike) : Z :=
  Z.quot (npix_base self) (npix_spec self).

(** The base pixels of region [i] of an object, and the groups of a full
    sweep in the order of the regions. *)
Definition region_of (self : MapLike) (i : Z) : list Z :=
  region_inds (nside_base self) (group_size self) i.
Definition sweep_regions (self : MapLike) : list (list Z) :=
  map (region_of self) (range 0 (npix_spec self)).

(** What the library guarantees at a valid resolution: [nest2ring] sends
    the pixel indices into themselves, and onto themselves. *)
Definition nest2ring_in_range (nside : Z) : Prop :=
  Forall (λ p, 0 ≤ hp.nest2ring nside p < hp.nside2npix nside)%Z
         (range 0 (hp.nside2npix nside)).
Definition nest2ring_permutes (nside : Z) : Prop :=
  map (hp.nest2ring nside) (range 0 (hp.nside2npix nside))
  ≡ₚ range 0 (hp.nside2npix nside).

(** The resolutions healpy accepts: the powers of two up to [2 ** 29]. *)
Definition valid_nside (nside : Z) : Prop :=
  ∃ k : nat, (k ≤ 29)%nat ∧ nside = (2 ^ Z.of_nat k)%Z.

(** The stored maps have one entry per base pixel. *)
Definition data_on_base (self : MapLike) : Prop :=
  (shape3 (data_mean self)).2 = Z.to_nat (npix_base self)
  ∧ (shape3 (data_vars self)).2 = Z.to_nat (npix_base self).

(** The sum over all polarization and pixel slices of the quadratic form
    of the amplitudes [T] in the matrices [A]. *)
Definition sum_quad_forms (T : array3) (A : array4) : Qc :=
  let '(np, nx, _) := shape3 T in
  sum np (λ i, sum nx (λ l, quad_form (slice3 T i l) (slice4 A i l))).

(** The residual at frequency [k], polarization [j] and pixel [l]: the data
    minus the mixing matrix applied to the amplitudes [T]. *)
Definition residual (F T d : array3) (k j l : nat) : Qc :=
  let '(nc, _, _) := shape3 F in
  at3 d k j l - sum nc (λ i, at3 F i j k * at3 T j l i).

(** The noise-weighted sum of squared residuals over every frequency,
    polarization and pixel. *)
Definition weighted_sq_residuals (F T d n_ivar : array3) : Qc :=
  let '(nf, np, nx) := shape3 d in
  sum nf (λ k, sum np (λ j, sum nx (λ l,
    residual F T d k j l * at3 n_ivar k j l * residual F T d k j l))).

(** ** The scenarios of the specification

    Three frequencies, one polarization channel, one pixel, one component
    and the mixing matrix [[1, 1, 1]]. *)

(** A map of shape [(3, 1, 1)]: one value per frequency. *)
Definition col3 (a b c : Z) : array3 :=
  Array3 (3, 1, 1)%nat [[[q a]]; [[q b]]; [[q c]]].

Definition ones_F : array3 := Array3 (1, 1, 3)%nat [[[q 1; q 1; q 1]]].

(** A sky model without parameters whose response is [ones_F], and an
    object built on it. *)
Definition sky_ones : SkyModel :=
  {| get_param_names := []; fnu := λ _ _, Ok ones_F |}.

Definition config_ones : Config :=
  {| fixed_pars := ∅; var_pars := []; nus := [q 1; q 2; q 3];
     nside_spec := 1; fpaths_mean := []; fpaths_vars := [] |}.

Definition maplike_ones : MapLike :=
  {| sky := sky_ones; config := config_ones;
     data_mean := Array3 (3, 1, 12)%nat (replicate 3 [replicate 12 (q 2)]);
     data_vars := Array3 (3, 1, 12)%nat (replicate 3 [replicate 12 (q 1)]);
     nside_base := 1 |}.

(** A model that needs [beta_d] and [T_d]; one configuration that fixes
    [T_d] and varies [beta_d], and one that also varies [T_d]. *)
Definition sky_dust : SkyModel :=
  {| get_param_names := ["beta_d"; "T_d"]; fnu := λ _ _, Ok ones_F |}.

Definition config_dust : Config :=
  {| fixed_pars := {["T_d" := q 20]}; var_pars := ["beta_d"];
     nus := [q 1; q 2; q 3]; nside_spec := 1;
     fpaths_mean := ["mean_nu001.fits"]; fpaths_vars := ["vars_nu001.fits"] |}.

Definition config_both : Config :=
  {| fixed_pars := {["T_d" := q 20]}; var_pars := ["beta_d"; "T_d"];
     nus := [q 1; q 2; q 3]; nside_spec := 1;
     fpaths_mean := ["mean_nu001.fits"]; fpaths_vars := ["vars_nu001.fits"] |}.

(** An object with two variable parameters and none fixed. *)
Definition config_two : Config :=
  {| fixed_pars := ∅; var_pars := ["beta_s"; "beta_d"];
     nus := [q 1; q 2; q 3]; nside_spec := 1;
     fpaths_mean := []; fpaths_vars := [] |}.

Definition maplike_two : MapLike :=
  {| sky := sky_ones; config := config_two;
     data_mean := data_mean maplike_ones; data_vars := data_vars maplike_ones;
     nside_base := 1 |}.



(** The resolutions of [test_maplike_grid]: 768 base pixels (resolution
    8) in 48 regions (resolution 2) of 16. *)
Definition config_grid : Config :=
  {| fixed_pars := ∅; var_pars := []; nus := [q 1; q 2; q 3];
     nside_spec := 2; fpaths_mean := []; fpaths_vars := [] |}.

Definition maplike_grid : MapLike :=
  {| sky := sky_ones; config := config_grid;
     data_mean := Array3 (1, 1, 768)%nat [[tab 768 (λ i, q (Z.of_nat i))]];
     data_vars := Array3 (1, 1, 768)%nat [[replicate 768 (q 1)]];
     nside_base := 8 |}.

(** ** Further notions *)


(** Two components, a flat and a rising one, at three frequencies; data at
    two pixels made of the amplitudes [(1, 2)] and [(0, 1)], and inverse
    variances that differ from entry to entry. *)
Definition line_F : array3 :=
  Array3 (2, 1, 3)%nat [[[q 1; q 1; q 1]]; [[q 1; q 2; q 3]]].

Definition sky_line : SkyModel :=
  {| get_param_names := []; fnu := λ _ _, Ok line_F |}.

Definition maplike_line : MapLike :=
  {| sky := sky_line; config := config_ones;
     data_mean := data_mean maplike_ones; data_vars := data_vars maplike_ones;
     nside_base := 1 |}.

Definition line_T : array3 :=
  Array3 (1, 2, 2)%nat [[[q 1; q 2]; [q 0; q 1]]].

Definition line_d : array3 :=
  Array3 (3, 1, 2)%nat [[[q 3; q 1]]; [[q 5; q 2]]; [[q 7; q 3]]].

Definition line_n : array3 :=
  Array3 (3, 1, 2)%nat [[[q 1; q 2]]; [[q 1; q 1]]; [[q 2; q 1]]].



(** An object whose variance maps have six pixels where the mean maps have
    the twelve of the base resolution, and one whose variance maps have
    twenty. *)
Definition maplike_short : MapLike :=
  {| sky := sky_ones; config := config_ones;
     data_mean := data_mean maplike_ones;
     data_vars := Array3 (3, 1, 6)%nat (replicate 3 [replicate 6 (q 1)]);
     nside_base := 1 |}.

Definition maplike_long : MapLike :=
  {| sky := sky_ones; config := config_ones;
     data_mean := data_mean maplike_ones;
     data_vars :=
       Array3 (3, 1, 20)%nat (replicate 3 [tab 20 (λ i, q (Z.of_nat i))]);
     nside_base := 1 |}.



Example q_div : q 6 / q 3 = q 2.
Proof. apply (bool_decide_unpack _). vm_compute. exact I. Qed.

Example nest2ring_doc :
  map (hp.nest2ring 2) (range 0 10) = [13; 5; 4; 0; 15; 7; 6; 1; 17; 9]%Z.
Proof. reflexivity. Qed.

Example solve_2x2 :
  solve1 2 [[q 0; q 2]; [q 1; q 1]] [q 4; q 3] = Ok [q 1; q 2].
Proof. apply (bool_decide_unpack _). vm_compute. exact I. Qed.

(** * Properties *)

(** ** Rows built by [tab] *)

Section tab_facts.
Context {A : Type}.
Implicit Types (f g : nat → A) (n i : nat).

Lemma length_tab n f : length (tab n f) = n.
Proof. unfold tab. by rewrite length_map, length_seq. Qed.

Lemma nth_tab n f i d : (i < n)%nat → nth i (tab n f) d = f i.
Proof.
  intros Hi. unfold tab.
  rewrite (nth_indep _ d (f 0%nat)) by (by rewrite length_map, length_seq).
  rewrite (map_nth f). by rewrite seq_nth.
Qed.

Lemma tab_ext n f g : (∀ i, (i < n)%nat → f i = g i) → tab n f = tab n g.
Proof.
  intros H. unfold tab. apply map_ext_in. intros i Hi.
  apply in_seq in Hi. apply H. lia.
Qed.

Lemma Forall_tab (P : A → Prop) n f :
  (∀ i, (i < n)%nat → P (f i)) → Forall P (tab n f).
Proof.
  intros H. unfold tab. apply Forall_forall. intros x Hx.
  apply list_elem_of_In, in_map_iff in Hx as (i & <- & Hi).
  apply in_seq in Hi. apply H. lia.
Qed.

Lemma tab_S n f : tab (S n) f = f 0%nat :: tab n (λ i, f (S i)).
Proof. unfold tab. simpl. f_equal. by rewrite <- seq_shift, map_map. Qed.

Lemma tab_nth (l : list A) d : tab (length l) (λ i, nth i l d) = l.
Proof.
  induction l as [|x l IH]; [done|].
  simpl length. rewrite tab_S. simpl. by rewrite IH.
Qed.
End tab_facts.

Lemma sum_ext n f g : (∀ i, (i < n)%nat → f i = g i) → sum n f = sum n g.
Proof. intros H. unfold sum. by rewrite (tab_ext n f g). Qed.

Lemma sum_S n f : sum (S n) f = f 0%nat + sum n (λ i, f (S i)).
Proof. unfold sum. by rewrite tab_S. Qed.

Lemma dot_sum (u v : rows1) :
  length u = length v →
  dot u v = sum (length u) (λ k, get1 u k * get1 v k).
Proof.
  revert v. induction u as [|a u IH]; intros [|b v] Hlen; try done.
  simpl length. rewrite sum_S. unfold dot. simpl.
  f_equal. apply IH. simpl in Hlen. lia.
Qed.

(** ** The linear solver *)

Section gesv_facts.
Implicit Types (sys rest : list eqn) (e : eqn) (xs ys v row : rows1).

Lemma dot_cons a u b v : dot (a :: u) (b :: v) = a * b + dot u v.
Proof. done. Qed.

Lemma dot_zeros u n : dot u (replicate n 0) = 0.
Proof.
  revert n. induction u as [|a u IH]; intros [|n]; try done.
  simpl replicate. rewrite dot_cons, IH. ring.
Qed.

Lemma dot_eliminate (m : Qc) u row xs :
  length u = length row → length row = length xs →
  dot (zip_with (λ x y, x - m * y) u row) xs = dot u xs - m * dot row xs.
Proof.
  revert row xs. induction u as [|a u IH]; intros [|b row] [|x xs] H1 H2;
    simplify_eq/=; try (unfold dot; simpl; ring).
  rewrite !dot_cons, IH by done. ring.
Qed.

Lemma swap_perm e0 ep (es : list eqn) p :
  es !! p = Some ep → e0 :: es ≡ₚ ep :: <[p := e0]> es.
Proof.
  revert p. induction es as [|x es IH]; intros [|p] Hp; simplify_eq/=.
  - apply perm_swap.
  - rewrite (perm_swap x e0), (IH _ Hp). apply perm_swap.
Qed.

Lemma iamax_max (col : list Qc) x :
  x ∈ col → Qcabs x <= Qcabs (nth (iamax col) col 0).
Proof.
  induction col as [|y col IH]; [by intros ?%elem_of_nil|].
  intros Hx. simpl. case_decide as Hle; simpl.
  - apply elem_of_cons in Hx as [->|Hx]; [apply Qcle_refl|].
    eapply Qcle_trans; [by apply IH|done].
  - apply elem_of_cons in Hx as [->|Hx]; [|by apply IH].
    apply Qclt_le_weak. by apply Qcnot_le_lt.
Qed.

Lemma iamax_lt (col : list Qc) : col ≠ [] → (iamax col < length col)%nat.
Proof.
  induction col as [|y col IH]; [done|]. intros _. simpl.
  case_decide as Hle; [lia|].
  destruct col as [|z col]; [|specialize (IH ltac:(done)); simpl in *; lia].
  exfalso. apply Hle. simpl. apply Qcabs_nonneg.
Qed.

Lemma pivot_Some sys e rest :
  pivot sys = Some (e, rest) → sys ≡ₚ e :: rest ∧ lead e ≠ 0.
Proof.
  unfold pivot. destruct sys as [|e0 es]; [done|].
  destruct (iamax _) as [|p].
  - case_decide; [done|]. by intros [= <- <-].
  - destruct (es !! p) as [ep|] eqn:Hp; [|done].
    case_decide; [done|]. intros [= <- <-]. split; [|done].
    by apply swap_perm.
Qed.

Lemma pivot_None sys :
  sys ≠ [] → pivot sys = None → Forall (λ e, lead e = 0) sys.
Proof.
  intros Hne Hp.
  assert (nth (iamax (map lead sys)) (map lead sys) 0 = 0) as Hmax.
  { pose proof (iamax_lt (map lead sys)) as Hlt.
    unfold pivot in Hp. destruct sys as [|e0 es]; [done|].
    specialize (Hlt ltac:(done)).
    destruct (iamax (map lead (e0 :: es))) as [|p] eqn:Hi.
    - simpl. by case_decide.
    - simpl in Hlt |- *. rewrite length_map in Hlt.
      destruct (es !! p) as [ep|] eqn:Hep.
      + case_decide as Hz; [|done].
        rewrite (nth_indep _ 0 (lead ep)) by (rewrite length_map; lia).
        rewrite (map_nth lead). apply nth_lookup_Some with (d := ep) in Hep.
        by rewrite Hep.
      + apply lookup_ge_None in Hep. lia. }
  apply Forall_forall. intros e He.
  apply Qcabs_null. apply Qcle_antisym; [|apply Qcabs_nonneg].
  eapply Qcle_trans.
  { apply (iamax_max (map lead sys)). by apply list_elem_of_fmap_2. }
  rewrite Hmax, Qcabs_pos; apply Qcle_refl.
Qed.

Lemma square_step n sys a row c rest :
  square (S n) sys → pivot sys = Some ((a :: row, c), rest) →
  a ≠ 0 ∧ length row = n ∧ Forall (λ e, length e.1 = S n) rest
  ∧ sys ≡ₚ (a :: row, c) :: rest
  ∧ square n (map (eliminate a row c) rest).
Proof.
  intros [Hlen Hall] [Hperm Ha]%pivot_Some.
  rewrite Hperm in Hall, Hlen. simpl in Hlen.
  apply Forall_cons in Hall as [Hrow Hrest]. simpl in Hrow.
  repeat split; try done; try lia.
  - rewrite length_map. lia.
  - apply List.Forall_map. eapply Forall_impl; [exact Hrest|].
    intros [u d] Hu. simpl in *. rewrite length_zip_with.
    destruct u; simpl in *; lia.
Qed.

(** What elimination does to an equation, read on a candidate
    [x0 :: xs] and on the pivot equation [(a :: row, c)]. *)
Lemma eliminate_sat a row c e x0 xs :
  a ≠ 0 → length e.1 = S (length row) → length row = length xs →
  a * x0 + dot row xs = c →
  sat xs (eliminate a row c e) ↔ sat (x0 :: xs) e.
Proof.
  intros Ha He Hrow Hpiv. destruct e as [[|b u] d]; [done|].
  unfold sat, eliminate, lead. simpl in *.
  rewrite dot_eliminate, dot_cons by lia.
  assert (b / a * a = b) as Hm by (by field).
  split; intros H.
  - rewrite <- Hpiv in H.
    replace (b * x0 + dot u xs)
      with (dot u xs - b / a * dot row xs + (b / a * a) * x0
            + b / a * dot row xs) by (rewrite Hm; ring).
    rewrite H. ring.
  - rewrite <- H, <- Hpiv.
    replace (b * x0) with ((b / a * a) * x0) by (by rewrite Hm). ring.
Qed.

Lemma eliminate_kills a row (c v0 : Qc) e v :
  a ≠ 0 → length e.1 = S (length row) → length row = length v →
  a * v0 + dot row v = 0 →
  kills v (eliminate a row c e) ↔ kills (v0 :: v) e.
Proof.
  intros Ha He Hrow Hpiv. destruct e as [[|b u] d]; [done|].
  unfold kills, eliminate, lead. simpl in *.
  rewrite dot_eliminate, dot_cons by lia.
  assert (b / a * a = b) as Hm by (by field).
  assert (dot row v = 0 - a * v0) as -> by (rewrite <- Hpiv; ring).
  replace (dot u v - b / a * (0 - a * v0))
    with (dot u v + (b / a * a) * v0) by ring.
  rewrite Hm, (Qcplus_comm (b * v0)). done.
Qed.

Lemma gesv_sound n : ∀ sys xs,
  square n sys → gesv n sys = Ok xs →
  length xs = n ∧ Forall (sat xs) sys.
Proof.
  induction n as [|n IH]; intros sys xs Hsq Hrun; simpl in Hrun.
  - destruct Hsq as [->%nil_length_inv _]. by simplify_eq.
  - destruct (pivot sys) as [[[[|a row] c] rest]|] eqn:Hp; try done.
    destruct (square_step _ _ _ _ _ _ Hsq Hp)
      as (Ha & Hrow & Hrest & Hperm & Hsq').
    destruct (gesv n _) as [xs'|] eqn:Hrec; simplify_eq/=.
    destruct (IH _ _ Hsq' Hrec) as [Hlen Hsat].
    split; [by rewrite Hlen|].
    assert (a * ((c - dot row xs') / a) + dot row xs' = c) as Hpiv
      by (by field).
    rewrite Hperm. constructor; [exact Hpiv|].
    rewrite List.Forall_map in Hsat.
    eapply Forall_impl; [apply Forall_and; split; [exact Hsat|exact Hrest]|].
    intros e [He1 He2]. eapply eliminate_sat; try done; simpl in *; lia.
Qed.

Lemma gesv_unique n : ∀ sys xs ys,
  square n sys → gesv n sys = Ok xs →
  length ys = n → Forall (sat ys) sys → ys = xs.
Proof.
  induction n as [|n IH]; intros sys xs ys Hsq Hrun Hlen Hys;
    simpl in Hrun.
  - apply nil_length_inv in Hlen. by simplify_eq.
  - destruct (pivot sys) as [[[[|a row] c] rest]|] eqn:Hp; try done.
    destruct (square_step _ _ _ _ _ _ Hsq Hp)
      as (Ha & Hrow & Hrest & Hperm & Hsq').
    destruct (gesv n _) as [xs'|] eqn:Hrec; simplify_eq/=.
    destruct ys as [|y0 ys]; simplify_eq/=.
    rewrite Hperm in Hys. apply Forall_cons in Hys as [Hpiv Hys].
    unfold sat in Hpiv. simpl in Hpiv. rewrite dot_cons in Hpiv.
    assert (ys = xs') as ->.
    { eapply IH; [done..|]. rewrite List.Forall_map.
      eapply Forall_impl; [apply Forall_and; split; [exact Hys|exact Hrest]|].
      intros e [He1 He2]. eapply eliminate_sat; try done; simpl in *; lia. }
    f_equal. rewrite <- Hpiv. by field.
Qed.

Lemma gesv_singular n : ∀ sys err,
  square n sys → gesv n sys = Err err →
  err = LinAlgError
  ∧ ∃ v, length v = n ∧ v ≠ replicate n 0 ∧ Forall (kills v) sys.
Proof.
  induction n as [|n IH]; intros sys err Hsq Hrun; simpl in Hrun; [done|].
  destruct (pivot sys) as [[[[|a row] c] rest]|] eqn:Hp.
  - apply pivot_Some in Hp as [Hperm _]. destruct Hsq as [_ Hall].
    rewrite Hperm in Hall. by apply Forall_cons in Hall as [? _].
  - destruct (square_step _ _ _ _ _ _ Hsq Hp)
      as (Ha & Hrow & Hrest & Hperm & Hsq').
    destruct (gesv n _) as [xs'|err'] eqn:Hrec; simplify_eq/=.
    destruct (IH _ _ Hsq' Hrec) as (-> & v & Hlen & Hnz & Hv).
    split; [done|].
    exists ((0 - dot row v) / a :: v).
    assert (a * ((0 - dot row v) / a) + dot row v = 0) as Hpiv
      by (by field).
    split_and!; [simpl; lia|by intros [= _ ?]|].
    rewrite Hperm. constructor; [exact Hpiv|].
    rewrite List.Forall_map in Hv.
    eapply Forall_impl; [apply Forall_and; split; [exact Hv|exact Hrest]|].
    intros e [He1 He2]. eapply eliminate_kills; try done; simpl in *; lia.
  - simplify_eq. split; [done|].
    assert (sys ≠ []) as Hne by (destruct Hsq as [? _]; by destruct sys).
    pose proof (pivot_None _ Hne Hp) as Hlead.
    exists (1 :: replicate n 0). split_and!; [simpl; by rewrite length_replicate|done|].
    eapply Forall_impl; [exact Hlead|].
    intros [[|b u] d] Hb; unfold kills, lead in *; simpl in *; [done|].
    rewrite dot_cons, dot_zeros, Hb. ring.
Qed.

End gesv_facts.

(** [solve1] on a matrix given by its rows. *)
Lemma Forall_sat_zip (m : rows2) (b xs : rows1) :
  length m = length b →
  Forall (sat xs) (zip m b) ↔ mat_vec m xs = b.
Proof.
  revert b. induction m as [|r m IH]; intros [|c b] Hlen; simplify_eq/=.
  - split; [done|constructor].
  - rewrite Forall_cons, IH by done. unfold sat. simpl.
    split; [by intros [-> ->]|by intros [= -> ->]].
Qed.

Lemma Forall_kills_zip (m : rows2) (b v : rows1) :
  length m = length b →
  Forall (kills v) (zip m b) ↔ mat_vec m v = replicate (length m) 0.
Proof.
  revert b. induction m as [|r m IH]; intros [|c b] Hlen; simplify_eq/=.
  - split; [done|constructor].
  - rewrite Forall_cons, IH by done. unfold kills. simpl.
    split; [by intros [-> ->]|by intros [= -> ->]].
Qed.

Lemma square_zip n (m : rows2) (b : rows1) :
  rect2 n n m → length b = n → square n (zip m b).
Proof.
  intros [Hm Hrows] Hb. split; [rewrite length_zip; lia|].
  apply Forall_forall. intros [r c] Hin.
  apply elem_of_zip_l in Hin. simpl.
  by apply (proj1 (Forall_forall _ _) Hrows).
Qed.

Lemma solve1_spec n (m : rows2) (b : rows1) :
  rect2 n n m → length b = n →
  match solve1 n m b with
  | Ok x => length x = n ∧ the_solution n m b x
  | Err err => err = LinAlgError ∧ singular n m
  end.
Proof.
  intros Hm Hb. pose proof (square_zip _ _ _ Hm Hb) as Hsq.
  assert (length m = length b) as Hlen by (destruct Hm; lia).
  unfold solve1. destruct (gesv n (zip m b)) as [x|err] eqn:Hrun.
  - destruct (gesv_sound _ _ _ Hsq Hrun) as [Hx Hsat].
    split; [done|]. split; [by apply Forall_sat_zip|].
    intros x' Hx' Hsol. eapply gesv_unique; [done..|].
    by apply Forall_sat_zip.
  - destruct (gesv_singular _ _ _ Hsq Hrun) as (-> & v & Hv & Hnz & Hk).
    split; [done|]. exists v. split_and!; [done..|].
    by apply (Forall_kills_zip m b).
Qed.

(** ** Comprehensions that may raise *)

Lemma map_result_seq_Ok {B} (f : nat → result B) (d : B) n : ∀ s ys,
  map_result f (seq s n) = Ok ys →
  length ys = n ∧ ∀ i, (i < n)%nat → f (s + i)%nat = Ok (nth i ys d).
Proof.
  induction n as [|n IH]; intros s ys H; simpl in H.
  - simplify_eq. split; [done|lia].
  - destruct (f s) as [b|] eqn:Hb; [|done]. simpl in H.
    destruct (map_result f (seq (S s) n)) as [bs|] eqn:Hbs; simplify_eq/=.
    destruct (IH _ _ Hbs) as [Hlen Hnth]. split; [by rewrite Hlen|].
    intros [|i] Hi; simpl.
    + by rewrite Nat.add_0_r.
    + rewrite <- Nat.add_succ_comm. apply Hnth. lia.
Qed.

Lemma map_result_seq_Err {B} (f : nat → result B) n : ∀ s err,
  map_result f (seq s n) = Err err →
  ∃ i, (i < n)%nat ∧ f (s + i)%nat = Err err.
Proof.
  induction n as [|n IH]; intros s err H; simpl in H; [done|].
  destruct (f s) as [b|err'] eqn:Hb; simpl in H.
  - destruct (map_result f (seq (S s) n)) as [bs|] eqn:Hbs; simplify_eq/=.
    destruct (IH _ _ Hbs) as (i & Hi & Hf). exists (S i).
    split; [lia|]. by rewrite <- Nat.add_succ_comm.
  - simplify_eq. exists 0%nat. split; [lia|]. by rewrite Nat.add_0_r.
Qed.

(** ** Entries and shapes of tabulated arrays *)

Ltac tab_entry :=
  unfold at4, at3, slice4, slice3, get4, get3, get2, get1; simpl;
  repeat (rewrite nth_tab by lia; cbv beta).

Lemma rect3_tab n1 n2 n3 (f : nat → nat → nat → Qc) :
  rect3 n1 n2 n3 (tab n1 (λ i, tab n2 (λ j, tab n3 (λ k, f i j k)))).
Proof.
  split; [apply length_tab|]. apply Forall_tab. intros i _.
  split; [apply length_tab|]. apply Forall_tab. intros j _.
  apply length_tab.
Qed.

Lemma rect4_tab n1 n2 n3 n4 (f : nat → nat → nat → nat → Qc) :
  rect4 n1 n2 n3 n4
    (tab n1 (λ i, tab n2 (λ j, tab n3 (λ k, tab n4 (λ l, f i j k l))))).
Proof.
  split; [apply length_tab|]. apply Forall_tab. intros i _.
  apply rect3_tab.
Qed.

(** ** The contractions on operands of matching shapes *)

Lemma bind_Ok {A B} (a : A) (k : A → result B) : (Ok a ≫= k) = k a.
Proof. done. Qed.

Lemma bind_Err {A B} err (k : A → result B) : (Err err ≫= k) = Err err.
Proof. done. Qed.

Section einsum_facts.
Implicit Types (a b c : array3) (m : array4).

Lemma einsum_ijk_ljk_jilk_ok a b ni nj nk nl :
  shape3 a = (ni, nj, nk) → shape3 b = (nl, nj, nk) →
  einsum_ijk_ljk_jilk a b
  = Ok (Array4 (nj, ni, nl, nk)
          (tab nj (λ j, tab ni (λ i, tab nl (λ l, tab nk (λ k,
             at3 a i j k * at3 b l j k)))))).
Proof.
  intros Ha Hb. unfold einsum_ijk_ljk_jilk. rewrite Ha, Hb.
  by rewrite decide_True.
Qed.

Lemma einsum_ijkl_lin_injk_ok m b ni nj nk nl nn :
  shape4 m = (ni, nj, nk, nl) → shape3 b = (nl, ni, nn) →
  einsum_ijkl_lin_injk m b
  = Ok (Array4 (ni, nn, nj, nk)
          (tab ni (λ i, tab nn (λ n, tab nj (λ j, tab nk (λ k,
             sum nl (λ l, at4 m i j k l * at3 b l i n))))))).
Proof.
  intros Hm Hb. unfold einsum_ijkl_lin_injk. rewrite Hm, Hb.
  by rewrite decide_True.
Qed.

Lemma einsum_jik_kil_kil_ilj_ok a b c nj ni nk nl :
  shape3 a = (nj, ni, nk) → shape3 b = (nk, ni, nl) →
  shape3 c = (nk, ni, nl) →
  einsum_jik_kil_kil_ilj a b c
  = Ok (Array3 (ni, nl, nj)
          (tab ni (λ i, tab nl (λ l, tab nj (λ j,
             sum nk (λ k, at3 a j i k * at3 b k i l * at3 c k i l)))))).
Proof.
  intros Ha Hb Hc. unfold einsum_jik_kil_kil_ilj. rewrite Ha, Hb, Hc.
  by rewrite decide_True.
Qed.

Lemma einsum_ijk_jli_kjl_ok a b ni nj nk nl :
  shape3 a = (ni, nj, nk) → shape3 b = (nj, nl, ni) →
  einsum_ijk_jli_kjl a b
  = Ok (Array3 (nk, nj, nl)
          (tab nk (λ k, tab nj (λ j, tab nl (λ l,
             sum ni (λ i, at3 a i j k * at3 b j l i)))))).
Proof.
  intros Ha Hb. unfold einsum_ijk_jli_kjl. rewrite Ha, Hb.
  by rewrite decide_True.
Qed.

Lemma einsum_ijk_ijk_ijk_ok a b c ni nj nk :
  shape3 a = (ni, nj, nk) → shape3 b = (ni, nj, nk) →
  shape3 c = (ni, nj, nk) →
  einsum_ijk_ijk_ijk a b c
  = Ok (sum ni (λ i, sum nj (λ j, sum nk (λ k,
          at3 a i j k * at3 b i j k * at3 c i j k)))).
Proof.
  intros Ha Hb Hc. unfold einsum_ijk_ijk_ijk. rewrite Ha, Hb, Hc.
  by rewrite decide_True.
Qed.

Lemma einsum_ijk_ijkl_ijl_ok a m c ni nj nk nl :
  shape3 a = (ni, nj, nk) → shape4 m = (ni, nj, nk, nl) →
  shape3 c = (ni, nj, nl) →
  einsum_ijk_ijkl_ijl a m c
  = Ok (sum ni (λ i, sum nj (λ j, sum nk (λ k, sum nl (λ l,
          at3 a i j k * at4 m i j k l * at3 c i j l))))).
Proof.
  intros Ha Hm Hc. unfold einsum_ijk_ijkl_ijl. rewrite Ha, Hm, Hc.
  by rewrite decide_True.
Qed.

Lemma sub3_ok a b ni nj nk :
  shape3 a = (ni, nj, nk) → shape3 b = (ni, nj, nk) →
  sub3 a b
  = Ok (Array3 (ni, nj, nk)
          (tab ni (λ i, tab nj (λ j, tab nk (λ k,
             at3 a i j k - at3 b i j k))))).
Proof.
  intros Ha Hb. unfold sub3. rewrite Ha, Hb. by rewrite decide_True.
Qed.
End einsum_facts.

(** ** The stacked solve *)

Lemma linalg_solve_spec (A : array4) (y : array3) np nx nc :
  shape4 A = (np, nx, nc, nc) → shape3 y = (np, nx, nc) →
  (∀ i l, (i < np)%nat → (l < nx)%nat → rect2 nc nc (slice4 A i l)) →
  (∀ i l, (i < np)%nat → (l < nx)%nat → length (slice3 y i l) = nc) →
  match linalg_solve A y with
  | Ok T =>
      shape3 T = (np, nx, nc) ∧ wf3 T
      ∧ ∀ i l, (i < np)%nat → (l < nx)%nat →
          the_solution nc (slice4 A i l) (slice3 y i l) (slice3 T i l)
  | Err err =>
      err = LinAlgError
      ∧ ∃ i l, (i < np)%nat ∧ (l < nx)%nat ∧ singular nc (slice4 A i l)
  end.
Proof.
  intros HA Hy Hrect Hlen. unfold linalg_solve. rewrite HA, Hy.
  rewrite !decide_True by done.
  destruct (map_result _ (seq 0 np)) as [rows|err] eqn:Hrows; simpl.
  - apply (map_result_seq_Ok _ []) in Hrows as [Hlrows Hrow]. simpl in Hrow.
    assert (∀ i l, (i < np)%nat → (l < nx)%nat →
              length (nth i rows []) = nx
              ∧ solve1 nc (slice4 A i l) (slice3 y i l)
                = Ok (nth l (nth i rows []) [])) as Hsl.
    { intros i l Hi Hl. specialize (Hrow i Hi).
      apply (map_result_seq_Ok _ []) in Hrow as [Hli Hil]. split; [done|].
      apply (Hil l Hl). }
    split; [done|]. split.
    + unfold wf3. simpl. split; [done|].
      apply (Forall_nth _ []). intros i Hi. rewrite Hlrows in Hi. split.
      * specialize (Hrow i Hi).
        by apply (map_result_seq_Ok _ []) in Hrow as [? _].
      * apply (Forall_nth _ []). intros l Hl.
        specialize (Hrow i Hi).
        apply (map_result_seq_Ok _ []) in Hrow as [Hli Hil].
        rewrite Hli in Hl. specialize (Hil l Hl). simpl in Hil.
        pose proof (solve1_spec nc _ _ (Hrect i l Hi Hl) (Hlen i l Hi Hl))
          as Hs.
        unfold slice4, slice3 in Hs. rewrite Hil in Hs. apply Hs.
    + intros i l Hi Hl. destruct (Hsl i l Hi Hl) as [_ Hs].
      pose proof (solve1_spec nc _ _ (Hrect i l Hi Hl) (Hlen i l Hi Hl))
        as Hspec.
      rewrite Hs in Hspec. apply Hspec.
  - apply map_result_seq_Err in Hrows as (i & Hi & Hrow). simpl in Hrow.
    apply map_result_seq_Err in Hrow as (l & Hl & Hs). simpl in Hs.
    pose proof (solve1_spec nc _ _ (Hrect i l Hi Hl) (Hlen i l Hi Hl))
      as Hspec.
    unfold slice4, slice3 in Hspec. rewrite Hs in Hspec.
    destruct Hspec as [-> Hsing]. split; [done|]. by exists i, l.
Qed.

(** ** The amplitude estimator *)

Section estimator.
Context (self : MapLike) (d_map n_ivar_map F : array3)
        (spec_params : list Qc) (nc np nf nx : nat).
Context (HF : shape3 F = (nc, np, nf))
        (Hd : shape3 d_map = (nf, np, nx))
        (Hn : shape3 n_ivar_map = (nf, np, nx)).

Lemma get_amplitude_covariance_given :
  get_amplitude_covariance self n_ivar_map spec_params (Some F)
  = Ok (covariance_of F n_ivar_map).
Proof using HF Hn.
  unfold get_amplitude_covariance, covariance_of, info_matrix.
  simpl or_compute. rewrite bind_Ok.
  rewrite (einsum_ijk_ljk_jilk_ok _ _ _ _ _ _ HF HF), bind_Ok.
  erewrite einsum_ijkl_lin_injk_ok; [|done..].
  rewrite HF, Hn. do 2 f_equal.
  apply tab_ext; intros i Hi. apply tab_ext; intros l Hl.
  apply tab_ext; intros j Hj. apply tab_ext; intros k Hk.
  apply sum_ext; intros f Hf. by tab_entry.
Qed.

Lemma weighted_data_given :
  einsum_jik_kil_kil_ilj F n_ivar_map d_map
  = Ok (Array3 (np, nx, nc)
          (tab np (λ i, tab nx (λ l, weighted_data F n_ivar_map d_map i l)))).
Proof using HF Hn Hd.
  erewrite einsum_jik_kil_kil_ilj_ok; [|done..].
  unfold weighted_data. by rewrite HF.
Qed.
End estimator.

Ltac by_evaluation := apply (bool_decide_unpack _); vm_compute; exact I.

(** The estimator on operands of consistent shapes: the covariance it
    uses, and the outcome of the stacked solve. *)
Lemma amplitude_mean_spec
    (self : MapLike) (d_map n_ivar_map F : array3) (spec_params : list Qc)
    (f_matrix_arg : option array3) (nc np nf nx : nat) :
  or_compute f_matrix_arg (f_matrix self spec_params) = Ok F →
  shape3 F = (nc, np, nf) →
  shape3 d_map = (nf, np, nx) →
  shape3 n_ivar_map = (nf, np, nx) →
  ∃ A,
    get_amplitude_covariance self n_ivar_map spec_params f_matrix_arg = Ok A
    ∧ shape4 A = (np, nx, nc, nc)
    ∧ (∀ i l, (i < np)%nat → (l < nx)%nat →
         slice4 A i l = info_matrix F n_ivar_map i l)
    ∧ match get_amplitude_mean self d_map n_ivar_map spec_params
              f_matrix_arg None with
      | Ok T =>
          shape3 T = (np, nx, nc) ∧ wf3 T
          ∧ ∀ i l, (i < np)%nat → (l < nx)%nat →
              the_solution nc (slice4 A i l)
                (weighted_data F n_ivar_map d_map i l) (slice3 T i l)
      | Err err =>
          err = LinAlgError
          ∧ ∃ i l, (i < np)%nat ∧ (l < nx)%nat ∧ singular nc (slice4 A i l)
      end.
Proof.
  intros HF Hs Hd Hn. rename f_matrix_arg into fm.
  pose proof (get_amplitude_covariance_given self n_ivar_map F spec_params
                nc np nf nx Hs Hn) as Hcov.
  pose proof (weighted_data_given d_map n_ivar_map F nc np nf nx Hs Hd Hn)
    as Hy.
  assert (get_amplitude_covariance self n_ivar_map spec_params fm
          = Ok (covariance_of F n_ivar_map)) as Hcov'.
  { revert Hcov. unfold get_amplitude_covariance. simpl or_compute.
    by rewrite HF. }
  assert (shape4 (covariance_of F n_ivar_map) = (np, nx, nc, nc)) as HshA.
  { unfold covariance_of. by rewrite Hs, Hn. }
  assert (∀ i l, (i < np)%nat → (l < nx)%nat →
            slice4 (covariance_of F n_ivar_map) i l
            = info_matrix F n_ivar_map i l) as Hslice.
  { intros i l Hi Hl. unfold covariance_of. rewrite Hs, Hn. by tab_entry. }
  assert (∀ i l, (i < np)%nat → (l < nx)%nat →
            rect2 nc nc (slice4 (covariance_of F n_ivar_map) i l)) as Hrect.
  { intros i l Hi Hl. rewrite Hslice by done. unfold info_matrix.
    rewrite Hs. split; [apply length_tab|].
    apply Forall_tab. intros j _. apply length_tab. }
  exists (covariance_of F n_ivar_map). split_and!; [done..|].
  unfold get_amplitude_mean. rewrite HF, bind_Ok. simpl or_compute.
  rewrite Hcov, bind_Ok, Hy, bind_Ok.
  set (y := Array3 _ _).
  assert (∀ i l, (i < np)%nat → (l < nx)%nat →
            slice3 y i l = weighted_data F n_ivar_map d_map i l) as Hysl.
  { intros i l Hi Hl. unfold y. by tab_entry. }
  assert (∀ i l, (i < np)%nat → (l < nx)%nat →
            length (slice3 y i l) = nc) as Hylen.
  { intros i l Hi Hl. rewrite Hysl by done. unfold weighted_data.
    rewrite Hs. apply length_tab. }
  pose proof (linalg_solve_spec (covariance_of F n_ivar_map) y np nx nc
                HshA eq_refl Hrect Hylen) as Hsolve.
  destruct (linalg_solve _ y) as [T|err]; [|done].
  destruct Hsolve as (HT & Hwf & Hsol).
  split_and!; [done..|]. intros i l Hi Hl.
  rewrite <- Hysl by done. by apply Hsol.
Qed.

(** C1. On operands of consistent shapes [get_amplitude_mean] solves, for
    each polarization [i] and pixel [l] on its own, the system
    [covariance_inverse . T = weighted_data]: the covariance inverse is the
    output of [get_amplitude_covariance], whose slice at [(i, l)] is the
    information matrix; the right-hand side is the contraction of mixing
    matrix, inverse noise variance and data over frequency; the slice of the
    result is the one solution of that system.  The call raises only
    [LinAlgError], and only when some slice has a singular matrix.  With
    three frequencies, mixing matrix [[1, 1, 1]], data [[2, 2, 2]] and
    inverse variance [[1, 1, 1]] the covariance inverse is 3, the weighted
    data is 6 and the amplitude mean is 2. *)
Theorem get_amplitude_mean_solves :
  (∀ (self : MapLike) (d_map n_ivar_map F : array3) (spec_params : list Qc)
     (f_matrix_arg : option array3) (nc np nf nx : nat),
     or_compute f_matrix_arg (f_matrix self spec_params) = Ok F →
     shape3 F = (nc, np, nf) →
     shape3 d_map = (nf, np, nx) →
     shape3 n_ivar_map = (nf, np, nx) →
     ∃ A,
       get_amplitude_covariance self n_ivar_map spec_params f_matrix_arg = Ok A
       ∧ shape4 A = (np, nx, nc, nc)
       ∧ (∀ i l, (i < np)%nat → (l < nx)%nat →
            slice4 A i l = info_matrix F n_ivar_map i l)
       ∧ match get_amplitude_mean self d_map n_ivar_map spec_params
                 f_matrix_arg None with
         | Ok T =>
             shape3 T = (np, nx, nc) ∧ wf3 T
             ∧ ∀ i l, (i < np)%nat → (l < nx)%nat →
                 the_solution nc (slice4 A i l)
                   (weighted_data F n_ivar_map d_map i l) (slice3 T i l)
         | Err err =>
             err = LinAlgError
             ∧ ∃ i l, (i < np)%nat ∧ (l < nx)%nat
                      ∧ singular nc (slice4 A i l)
         end
       ∧ ((∀ i l, (i < np)%nat → (l < nx)%nat → ¬ singular nc (slice4 A i l))
          → ∃ T, get_amplitude_mean self d_map n_ivar_map spec_params
                   f_matrix_arg None = Ok T))
  ∧ (∀ (self : MapLike) (spec_params : list Qc),
       get_amplitude_covariance self (col3 1 1 1) spec_params (Some ones_F)
       = Ok (Array4 (1, 1, 1, 1)%nat [[[[q 3]]]])
       ∧ einsum_jik_kil_kil_ilj ones_F (col3 1 1 1) (col3 2 2 2)
         = Ok (Array3 (1, 1, 1)%nat [[[q 6]]])
       ∧ get_amplitude_mean self (col3 2 2 2) (col3 1 1 1) spec_params
           (Some ones_F) None
         = Ok (Array3 (1, 1, 1)%nat [[[q 2]]])).
Proof.
  split; [|intros self spec_params; split_and!; by_evaluation].
  intros self d_map n_ivar_map F spec_params fm nc np nf nx HF Hs Hd Hn.
  destruct (amplitude_mean_spec self d_map n_ivar_map F spec_params fm
              nc np nf nx HF Hs Hd Hn) as (A & HA & Hsh & Hsl & Hmean).
  exists A. split_and!; [done..|].
  intros Hreg. destruct (get_amplitude_mean _ _ _ _ fm None) as [T|err].
  - by exists T.
  - destruct Hmean as (_ & i & l & Hi & Hl & Hsing).
    by destruct (Hreg i l Hi Hl).
Qed.

Lemma get_amplitude_mean_solves_witness :
  ∃ A,
    get_amplitude_covariance maplike_ones (col3 1 1 1) [] None = Ok A
    ∧ shape4 A = (1, 1, 1, 1)%nat
    ∧ (∀ i l, (i < 1)%nat → (l < 1)%nat →
         slice4 A i l = info_matrix ones_F (col3 1 1 1) i l)
    ∧ match get_amplitude_mean maplike_ones (col3 2 2 2) (col3 1 1 1) []
              None None with
      | Ok T =>
          shape3 T = (1, 1, 1)%nat ∧ wf3 T
          ∧ ∀ i l, (i < 1)%nat → (l < 1)%nat →
              the_solution 1 (slice4 A i l)
                (weighted_data ones_F (col3 1 1 1) (col3 2 2 2) i l)
                (slice3 T i l)
      | Err err =>
          err = LinAlgError
          ∧ ∃ i l, (i < 1)%nat ∧ (l < 1)%nat ∧ singular 1 (slice4 A i l)
      end
    ∧ ((∀ i l, (i < 1)%nat → (l < 1)%nat → ¬ singular 1 (slice4 A i l))
       → ∃ T, get_amplitude_mean maplike_ones (col3 2 2 2) (col3 1 1 1) []
                None None = Ok T).
Proof.
  exact (proj1 get_amplitude_mean_solves maplike_ones (col3 2 2 2)
           (col3 1 1 1) ones_F [] None 1%nat 1%nat 3%nat 1%nat
           eq_refl eq_refl eq_refl eq_refl).
Defined.

(** ** The scalar statistics *)

Lemma sum_scale (c : Qc) n : ∀ f, c * sum n f = sum n (λ i, c * f i).
Proof.
  induction n as [|n IH]; intros f.
  - unfold sum. simpl. ring.
  - rewrite !sum_S, <- IH. ring.
Qed.

Lemma quad_form_sum n (x : rows1) (m : rows2) :
  rect2 n n m → length x = n →
  quad_form x m
  = sum n (λ k, sum n (λ l, get1 x k * get1 (nth k m []) l * get1 x l)).
Proof.
  intros [Hm Hrows] Hx. unfold quad_form.
  rewrite dot_sum by (unfold mat_vec; rewrite length_map; lia).
  rewrite Hx. apply sum_ext. intros k Hk.
  unfold mat_vec, get1 at 2.
  rewrite (nth_indep _ 0 (dot [] x)) by (rewrite length_map; lia).
  rewrite (map_nth (λ r, dot r x)).
  assert (length (nth k m []) = n) as Hr.
  { apply (proj1 (Forall_nth _ [] _) Hrows). lia. }
  rewrite dot_sum by lia. rewrite Hr, sum_scale.
  apply sum_ext. intros l Hl. ring.
Qed.

Lemma get_amplitude_mean_args (self : MapLike) d_map n_ivar_map spec_params
    F nc np nf nx :
  f_matrix self spec_params = Ok F →
  shape3 F = (nc, np, nf) → shape3 n_ivar_map = (nf, np, nx) →
  get_amplitude_mean self d_map n_ivar_map spec_params (Some F)
    (Some (covariance_of F n_ivar_map))
  = get_amplitude_mean self d_map n_ivar_map spec_params None None.
Proof.
  intros HF Hs Hn. unfold get_amplitude_mean. simpl or_compute.
  rewrite HF, !bind_Ok.
  by rewrite (get_amplitude_covariance_given self n_ivar_map F spec_params
                nc np nf nx Hs Hn).
Qed.

(** C7. [marginal_spectral_likelihood] returns the quadratic form
    [amplitude_mean^T . covariance_inverse . amplitude_mean] summed over
    all polarization and pixel slices, for the amplitude mean [T] and the
    covariance inverse [A] that the estimator returns for the same
    parameters and data; when the estimator raises, so does the
    likelihood. *)
Theorem marginal_spectral_likelihood_quadratic
    (self : MapLike) (spec_params : list Qc) (d_map n_ivar_map F : array3)
    (A : array4) (nc np nf nx : nat) :
  f_matrix self spec_params = Ok F →
  shape3 F = (nc, np, nf) →
  shape3 d_map = (nf, np, nx) →
  shape3 n_ivar_map = (nf, np, nx) →
  get_amplitude_covariance self n_ivar_map spec_params None = Ok A →
  match get_amplitude_mean self d_map n_ivar_map spec_params None None with
  | Ok T =>
      marginal_spectral_likelihood self spec_params d_map n_ivar_map
      = Ok (sum_quad_forms T A)
  | Err err =>
      marginal_spectral_likelihood self spec_params d_map n_ivar_map
      = Err err
  end.
Proof.
  intros HF Hs Hd Hn HA.
  destruct (amplitude_mean_spec self d_map n_ivar_map F
              spec_params None nc np nf nx HF Hs Hd Hn)
    as (A' & HA' & HshA & Hslice & Hmean).
  rewrite HA in HA'. injection HA' as <-.
  pose proof (get_amplitude_covariance_given self n_ivar_map F spec_params
                nc np nf nx Hs Hn) as Hcov.
  assert (A = covariance_of F n_ivar_map) as HAeq.
  { revert HA. unfold get_amplitude_covariance. simpl or_compute.
    rewrite HF. unfold get_amplitude_covariance in Hcov.
    simpl or_compute in Hcov. rewrite Hcov. by intros [= <-]. }
  unfold marginal_spectral_likelihood. rewrite HF, bind_Ok, Hcov, bind_Ok.
  rewrite (get_amplitude_mean_args self d_map n_ivar_map spec_params F
             nc np nf nx HF Hs Hn).
  destruct (get_amplitude_mean _ _ _ _ None None) as [T|err]; [|done].
  destruct Hmean as (HT & HwfT & _). rewrite bind_Ok, <- HAeq.
  erewrite einsum_ijk_ijkl_ijl_ok; [|done..]. f_equal.
  unfold sum_quad_forms. rewrite HT.
  apply sum_ext; intros i Hi. apply sum_ext; intros l Hl.
  rewrite (quad_form_sum nc); [done| |].
  - rewrite Hslice by done. unfold info_matrix. rewrite Hs.
    split; [apply length_tab|]. apply Forall_tab. intros j _.
    apply length_tab.
  - unfold wf3 in HwfT. rewrite HT in HwfT. destruct HwfT as [Hl1 Hall].
    pose proof (proj1 (Forall_nth _ [] _) Hall i ltac:(lia)) as [Hl2 Hall2].
    apply (proj1 (Forall_nth _ [] _) Hall2 l). lia.
Qed.

Lemma marginal_spectral_likelihood_quadratic_witness :
  match get_amplitude_mean maplike_ones (col3 2 2 2) (col3 1 1 1) []
          None None with
  | Ok T =>
      marginal_spectral_likelihood maplike_ones [] (col3 2 2 2) (col3 1 1 1)
      = Ok (sum_quad_forms T (Array4 (1, 1, 1, 1)%nat [[[[q 3]]]]))
  | Err err =>
      marginal_spectral_likelihood maplike_ones [] (col3 2 2 2) (col3 1 1 1)
      = Err err
  end.
Proof.
  apply (marginal_spectral_likelihood_quadratic maplike_ones [] (col3 2 2 2)
           (col3 1 1 1) ones_F (Array4 (1, 1, 1, 1)%nat [[[[q 3]]]])
           1%nat 1%nat 3%nat 1%nat); reflexivity.
Defined.

(** [chi2] on operands of consistent shapes, for either outcome of the
    amplitude estimate it starts with. *)
Lemma chi2_spec
    (self : MapLike) (spec_params : list Qc) (d_map n_ivar_map F : array3)
    (f_matrix_arg : option array3) (nc np nf nx : nat) :
  or_compute f_matrix_arg (f_matrix self spec_params) = Ok F →
  shape3 F = (nc, np, nf) →
  shape3 d_map = (nf, np, nx) →
  shape3 n_ivar_map = (nf, np, nx) →
  match get_amplitude_mean self d_map n_ivar_map spec_params None None with
  | Ok T =>
      shape3 T = (np, nx, nc) →
      chi2 self spec_params d_map n_ivar_map f_matrix_arg
      = Ok (weighted_sq_residuals F T d_map n_ivar_map)
  | Err err =>
      chi2 self spec_params d_map n_ivar_map f_matrix_arg = Err err
  end.
Proof.
  intros HF Hs Hd Hn. unfold chi2. rewrite HF, bind_Ok.
  destruct (get_amplitude_mean _ _ _ _ None None) as [T|err]; [|done].
  intros HT. rewrite bind_Ok.
  erewrite einsum_ijk_jli_kjl_ok; [|done..]. rewrite bind_Ok.
  erewrite sub3_ok; [|done..]. rewrite bind_Ok. cbv zeta.
  erewrite einsum_ijk_ijk_ijk_ok; [|done..]. f_equal.
  unfold weighted_sq_residuals, residual. rewrite Hd, Hs.
  apply sum_ext; intros k Hk. apply sum_ext; intros j Hj.
  apply sum_ext; intros l Hl. by tab_entry.
Qed.

(** C3, as the code has it.  [chi2] returns the noise-weighted sum of
    squared residuals over all frequency, polarization and pixel entries,
    the residual being the data minus the mixing matrix applied to the
    amplitude mean that [get_amplitude_mean] fits to that same data; when
    the fit raises, so does [chi2].  This holds for the mixing matrix of the
    model and for one the caller passes in (the amplitudes then having the
    shape that goes with it).  In the scenario with mixing matrix
    [[1, 1, 1]], inverse variance [[1, 1, 1]] and data [[2, 2, 4]] the fitted
    amplitude is 8/3, the residual is [[-2/3, -2/3, 4/3]] and [chi2] is
    8/3. *)
Theorem chi2_weighted_residuals :
  (∀ (self : MapLike) (spec_params : list Qc) (d_map n_ivar_map F : array3)
     (nc np nf nx : nat),
     f_matrix self spec_params = Ok F →
     shape3 F = (nc, np, nf) →
     shape3 d_map = (nf, np, nx) →
     shape3 n_ivar_map = (nf, np, nx) →
     match get_amplitude_mean self d_map n_ivar_map spec_params None None with
     | Ok T =>
         chi2 self spec_params d_map n_ivar_map None
         = Ok (weighted_sq_residuals F T d_map n_ivar_map)
     | Err err => chi2 self spec_params d_map n_ivar_map None = Err err
     end)
  ∧ (∀ (self : MapLike) (spec_params : list Qc) (d_map n_ivar_map F : array3)
       (nc np nf nx : nat),
       shape3 F = (nc, np, nf) →
       shape3 d_map = (nf, np, nx) →
       shape3 n_ivar_map = (nf, np, nx) →
       match get_amplitude_mean self d_map n_ivar_map spec_params
               None None with
       | Ok T =>
           shape3 T = (np, nx, nc) →
           chi2 self spec_params d_map n_ivar_map (Some F)
           = Ok (weighted_sq_residuals F T d_map n_ivar_map)
       | Err err =>
           chi2 self spec_params d_map n_ivar_map (Some F) = Err err
       end)
  ∧ (let T := Array3 (1, 1, 1)%nat [[[q 8 / q 3]]] in
     get_amplitude_mean maplike_ones (col3 2 2 4) (col3 1 1 1) [] None None
     = Ok T
     ∧ map (λ k, residual ones_F T (col3 2 2 4) k 0 0) [0; 1; 2]%nat
       = [- (q 2 / q 3); - (q 2 / q 3); q 4 / q 3]
     ∧ chi2 maplike_ones [] (col3 2 2 4) (col3 1 1 1) None = Ok (q 8 / q 3)
     ∧ chi2 maplike_ones [] (col3 2 2 4) (col3 1 1 1) (Some ones_F)
       = Ok (q 8 / q 3)).
Proof.
  split_and!.
  - intros self spec_params d_map n_ivar_map F nc np nf nx HF Hs Hd Hn.
    pose proof (chi2_spec self spec_params d_map n_ivar_map F None
                  nc np nf nx HF Hs Hd Hn) as Hchi.
    destruct (amplitude_mean_spec self d_map n_ivar_map F spec_params None
                nc np nf nx HF Hs Hd Hn) as (A & _ & _ & _ & Hmean).
    destruct (get_amplitude_mean _ _ _ _ None None) as [T|err]; [|done].
    apply Hchi, Hmean.
  - intros self spec_params d_map n_ivar_map F nc np nf nx Hs Hd Hn.
    by apply (chi2_spec self spec_params d_map n_ivar_map F (Some F)
                nc np nf nx).
  - cbv zeta. split_and!; by_evaluation.
Qed.

Lemma chi2_weighted_residuals_witness :
  match get_amplitude_mean maplike_ones (col3 2 2 4) (col3 1 1 1) []
          None None with
  | Ok T =>
      chi2 maplike_ones [] (col3 2 2 4) (col3 1 1 1) None
      = Ok (weighted_sq_residuals ones_F T (col3 2 2 4) (col3 1 1 1))
  | Err err =>
      chi2 maplike_ones [] (col3 2 2 4) (col3 1 1 1) None = Err err
  end.
Proof.
  exact (proj1 chi2_weighted_residuals maplike_ones [] (col3 2 2 4)
           (col3 1 1 1) ones_F 1%nat 1%nat 3%nat 1%nat
           eq_refl eq_refl eq_refl eq_refl).
Defined.

(** In the scenario of C3 the code does not return 4, and the residual is
    not [[0, 0, 2]]: the amplitude is fitted to the data [[2, 2, 4]]
    itself. *)
Lemma chi2_scenario_is_not_4 :
  chi2 maplike_ones [] (col3 2 2 4) (col3 1 1 1) None ≠ Ok (q 4)
  ∧ chi2 maplike_ones [] (col3 2 2 4) (col3 1 1 1) (Some ones_F) ≠ Ok (q 4)
  ∧ ∀ T, get_amplitude_mean maplike_ones (col3 2 2 4) (col3 1 1 1) []
           None None = Ok T →
         map (λ k, residual ones_F T (col3 2 2 4) k 0 0) [0; 1; 2]%nat
         ≠ [q 0; q 0; q 2].
Proof.
  split_and!; [by_evaluation..|].
  intros T HT.
  assert (Ok T = Ok (Array3 (1, 1, 1)%nat [[[q 8 / q 3]]])) as [= ->]
    by (rewrite <- HT; by_evaluation).
  by_evaluation.
Qed.

(** ** Reduced chi-squared and p-value *)

(** C4.  [chi2perdof] never returns: once [chi2] has been computed, the
    degrees of freedom read the name [amp_mean], which the method never
    binds, and the call ends in [NameError]; a failure of [chi2] is passed
    on.  In the scenario with data [[2, 2, 2]], where chi-squared is 0 and
    the degrees of freedom would be 3 - 0 - 1 = 2, the quotient 0 is
    expected and [NameError] is raised. *)
Theorem chi2perdof_raises_NameError :
  (∀ (self : MapLike) (spec_params : list Qc) (d_map n_ivar_map : array3)
     (f_matrix_arg : option array3),
     chi2perdof self spec_params d_map n_ivar_map f_matrix_arg
     = match chi2 self spec_params d_map n_ivar_map f_matrix_arg with
       | Ok _ => Err (NameError "amp_mean")
       | Err err => Err err
       end)
  ∧ chi2 maplike_ones [] (col3 2 2 2) (col3 1 1 1) None = Ok (q 0)
  ∧ get_amplitude_mean maplike_ones (col3 2 2 2) (col3 1 1 1) [] None None
    = Ok (Array3 (1, 1, 1)%nat [[[q 2]]])
  ∧ dof_of maplike_ones (col3 2 2 2) (Array3 (1, 1, 1)%nat [[[q 2]]]) = 2%Z
  ∧ chi2perdof maplike_ones [] (col3 2 2 2) (col3 1 1 1) None
    = Err (NameError "amp_mean").
Proof.
  split_and!; [|by_evaluation..].
  intros self spec_params d_map n_ivar_map fm. unfold chi2perdof.
  by destruct (chi2 _ _ _ _ _).
Qed.

(** C5.  [pval] never returns either, for the same unbound name, whatever
    the distribution function: in the scenario with data [[2, 2, 2]]
    chi-squared is 0 with 2 degrees of freedom, the p-value 1 is expected
    and [NameError] is raised. *)
Theorem pval_raises_NameError :
  (∀ (cdf : Qc → Z → Qc) (self : MapLike) (spec_params : list Qc)
     (d_map n_ivar_map : array3) (f_matrix_arg : option array3),
     pval cdf self spec_params d_map n_ivar_map f_matrix_arg
     = match chi2 self spec_params d_map n_ivar_map f_matrix_arg with
       | Ok _ => Err (NameError "amp_mean")
       | Err err => Err err
       end)
  ∧ (∀ cdf : Qc → Z → Qc,
       chi2 maplike_ones [] (col3 2 2 2) (col3 1 1 1) None = Ok (q 0)
       ∧ pval cdf maplike_ones [] (col3 2 2 2) (col3 1 1 1) None
         = Err (NameError "amp_mean")).
Proof.
  split.
  - intros cdf self spec_params d_map n_ivar_map fm. unfold pval.
    by destruct (chi2 _ _ _ _ _).
  - intros cdf. split; by_evaluation.
Qed.

(** ** The constructor's parameter check *)

Lemma check_clash (cfg : Config) :
  existsb (λ par, bool_decide (is_Some (fixed_pars cfg !! par)))
          (var_pars cfg) = true
  ↔ ∃ p, p ∈ fixed_names cfg ∧ p ∈ var_names cfg.
Proof.
  rewrite existsb_exists. unfold fixed_names, var_names. split.
  - intros (p & Hin & Hp). exists p.
    apply bool_decide_eq_true in Hp. split.
    + by apply elem_of_dom.
    + apply elem_of_list_to_set. by apply list_elem_of_In.
  - intros (p & Hf & Hv). exists p. split.
    + apply list_elem_of_In. by apply elem_of_list_to_set in Hv.
    + apply bool_decide_eq_true. by apply elem_of_dom.
Qed.

Lemma check_parameters_Ok (skymodel : SkyModel) (cfg : Config) :
  check_parameters skymodel cfg = Ok ()
  ↔ fixed_names cfg ∪ var_names cfg = required_names skymodel
    ∧ ¬ ∃ p, p ∈ fixed_names cfg ∧ p ∈ var_names cfg.
Proof.
  unfold check_parameters. rewrite <- check_clash.
  destruct (existsb _ _); [split; [done|by intros [_ []]]|].
  unfold fixed_names, var_names, required_names. cbv zeta.
  case_bool_decide as Heq; simpl.
  - split; [|done]. intros _. split; [done|by intros ?].
  - split; [done|]. intros [Heq' _]. by rewrite Heq' in Heq.
Qed.

Lemma check_parameters_Err (skymodel : SkyModel) (cfg : Config) err :
  check_parameters skymodel cfg = Err err → ∃ msg, err = ConfigError msg.
Proof.
  unfold check_parameters. destruct (existsb _ _); [intros [= <-]; eauto|].
  destruct (negb _); [intros [= <-]; eauto|done].
Qed.

(** C6.  When the fixed and the variable names together differ from the
    names the sky model requires, or some name is both fixed and variable,
    construction fails with [ConfigError] and no file has been read.  When
    they are the same set and no name is in both, the check passes and
    construction goes on to read the data: it returns the object as soon as
    the maps load. *)
Theorem check_parameters_gate
    (fs : filesystem) (cfg : Config) (skymodel : SkyModel) :
  (fixed_names cfg ∪ var_names cfg ≠ required_names skymodel
   ∨ (∃ p, p ∈ fixed_names cfg ∧ p ∈ var_names cfg) →
   ∃ msg, check_parameters skymodel cfg = Err (ConfigError msg)
          ∧ IO.run (init fs cfg skymodel) = (Err (ConfigError msg), []))
  ∧ (fixed_names cfg ∪ var_names cfg = required_names skymodel
     ∧ (¬ ∃ p, p ∈ fixed_names cfg ∧ p ∈ var_names cfg) →
     check_parameters skymodel cfg = Ok ()
     ∧ IO.run (init fs cfg skymodel)
       = match IO.run (read_data fs cfg) with
         | (Ok d, files) => (Ok (constructed skymodel cfg d), files)
         | (Err err, files) => (Err err, files)
         end).
Proof.
  split.
  - intros Hbad.
    destruct (check_parameters skymodel cfg) as [[]|err] eqn:Hc.
    + apply check_parameters_Ok in Hc as [Heq Hno]. by destruct Hbad.
    + destruct (check_parameters_Err _ _ _ Hc) as [msg ->].
      exists msg. split; [done|].
      unfold IO.run, init, IO.bind, IO.lift. by rewrite Hc.
  - intros Hgood. apply check_parameters_Ok in Hgood as Hc.
    split; [done|].
    unfold IO.run, init, IO.bind at 1, IO.lift. rewrite Hc.
    unfold IO.bind at 1. by destruct (read_data fs cfg []) as [[d|err] files].
Qed.

Lemma check_parameters_gate_witness :
  (∃ msg, check_parameters sky_dust config_both = Err (ConfigError msg)
          ∧ IO.run (init (λ _, Err ValueError) config_both sky_dust)
            = (Err (ConfigError msg), []))
  ∧ check_parameters sky_dust config_dust = Ok ()
  ∧ IO.run (init (λ _, Ok [replicate 12 (q 1)]) config_dust sky_dust)
    = match IO.run (read_data (λ _, Ok [replicate 12 (q 1)]) config_dust) with
      | (Ok d, files) => (Ok (constructed sky_dust config_dust d), files)
      | (Err err, files) => (Err err, files)
      end.
Proof.
  split.
  - apply (proj1 (check_parameters_gate (λ _, Err ValueError) config_both
                    sky_dust)).
    right. exists "T_d". split; by_evaluation.
  - apply (proj2 (check_parameters_gate (λ _, Ok [replicate 12 (q 1)])
                    config_dust sky_dust)).
    split; [by_evaluation|].
    intros (p & Hf & Hv).
    assert (fixed_names config_dust ## var_names config_dust) as Hdisj
      by by_evaluation.
    exact (Hdisj p Hf Hv).
Defined.

(** The object [__init__] returns stores its mean maps on the base pixels:
    [nside_base] is read off the first mean map. *)
Lemma init_data_mean_on_base
    (fs : filesystem) (cfg : Config) (skymodel : SkyModel) self files :
  IO.run (init fs cfg skymodel) = (Ok self, files) →
  (shape3 (data_mean self)).2 = Z.to_nat (hp.nside2npix (nside_base self)).
Proof.
  unfold IO.run, init, IO.bind at 1, IO.lift at 1.
  destruct (check_parameters skymodel cfg) as [[]|]; [|done].
  unfold IO.bind at 1.
  destruct (read_data fs cfg []) as [[[[dm dv] ns]|] files'] eqn:Hread;
    [|done].
  unfold IO.ret. intros [= <- <-]. simpl.
  revert Hread. unfold read_data, IO.bind, IO.lift, IO.ret.
  destruct (read_hpix_maps fs (fpaths_mean cfg) []) as [[dm'|] l1]; [|done].
  destruct (read_hpix_maps fs (fpaths_vars cfg) l1) as [[dv'|] l2]; [|done].
  destruct (get_nside_00 dm') as [ns'|] eqn:Hns; [|done].
  intros [= -> -> -> _]. revert Hns. unfold get_nside_00.
  destruct (shape3 dm) as [[nf np] npix]. case_decide; [done|].
  unfold hp.get_nside. case_decide; [done|].
  unfold hp.npix2nside. case_decide as Hpix; [|done].
  intros [= <-]. simpl. rewrite Hpix. lia.
Qed.

(** ** The mixing-matrix builder *)

Section pairing.
Implicit Types (d : gmap string Qc) (kvs : list (string * Qc))
               (names : list string) (vals : list Qc).

Lemma foldl_insert_None kvs : ∀ d p,
  foldl (λ d kv, <[kv.1 := kv.2]> d) d kvs !! p = None
  ↔ d !! p = None ∧ p ∉ kvs.*1.
Proof.
  induction kvs as [|[k v] kvs IH]; intros d p; simpl.
  - split; [intros ?; split; [done|apply not_elem_of_nil]|by intros [? _]].
  - rewrite IH, lookup_insert_None, not_elem_of_cons.
    split; [intros [[? ?] ?]|intros [? [? ?]]]; split_and!;
      try done; by intros ->.
Qed.

Lemma fst_zip_take names : ∀ vals,
  (zip names vals).*1 = take (length vals) names.
Proof.
  induction names as [|k names IH]; intros [|v vals]; simpl; try done.
  by rewrite IH.
Qed.

Lemma zip_extra names vals extra :
  (length names ≤ length vals)%nat →
  zip names (vals ++ extra) = zip names vals.
Proof.
  revert vals. induction names as [|k names IH]; intros [|v vals] Hlen;
    simpl in *; try done; try lia.
  f_equal. apply IH. lia.
Qed.
End pairing.

(** C9.  [f_matrix] checks no length.  Its result is the sky model's
    response on the merged dictionary, so nothing but the model can raise;
    the dictionary pairs names and values up to the shorter of the two
    lists: values beyond the last name change nothing, and a variable name
    that no value is paired with (and that is not fixed) is absent from the
    dictionary handed to the model. *)
Theorem f_matrix_pairing_truncates (self : MapLike) (vals : list Qc) :
  let cfg := config self in
  let n := (length (var_pars cfg) `min` length vals)%nat in
  f_matrix self vals = fnu (sky self) (nus cfg) (spec_params_dict cfg vals)
  ∧ spec_params_dict cfg vals
    = fixed_pars cfg
      ∪ foldl (λ d kv, <[kv.1 := kv.2]> d) ∅
          (zip (take n (var_pars cfg)) (take n vals))
  ∧ (∀ extra, (length (var_pars cfg) ≤ length vals)%nat →
       spec_params_dict cfg (vals ++ extra) = spec_params_dict cfg vals
       ∧ f_matrix self (vals ++ extra) = f_matrix self vals)
  ∧ (∀ p, p ∈ var_pars cfg → p ∉ take (length vals) (var_pars cfg) →
       fixed_pars cfg !! p = None →
       spec_params_dict cfg vals !! p = None)
  ∧ dom (spec_params_dict cfg vals)
    = fixed_names cfg ∪ list_to_set (take (length vals) (var_pars cfg)).
Proof.
  intros cfg n. split_and!.
  - done.
  - unfold spec_params_dict. do 2 f_equal. symmetry.
    apply zip_with_take_both'; lia.
  - intros extra Hlen. unfold f_matrix, spec_params_dict. fold cfg.
    by rewrite zip_extra.
  - intros p _ Hp Hfix. unfold spec_params_dict.
    apply lookup_union_None_2; [done|].
    apply foldl_insert_None. split; [apply lookup_empty|].
    by rewrite fst_zip_take.
  - apply set_eq. intros p. unfold spec_params_dict, fixed_names.
    rewrite dom_union_L, elem_of_union, elem_of_union, elem_of_list_to_set.
    rewrite <- fst_zip_take.
    assert (p ∈ dom (foldl (λ d kv, <[kv.1 := kv.2]> d) (∅ : gmap string Qc)
                       (zip (var_pars cfg) vals))
            ↔ p ∈ (zip (var_pars cfg) vals).*1) as ->; [|done].
    rewrite elem_of_dom, <- not_eq_None_Some, foldl_insert_None.
    rewrite lookup_empty.
    destruct (decide (p ∈ (zip (var_pars cfg) vals).*1)) as [Hin|Hout].
    + split; [done|]. by intros _ [_ ?].
    + split; [|done]. intros Hno. by destruct Hno.
Qed.

Lemma f_matrix_pairing_truncates_witness :
  (spec_params_dict config_two ([q 1; q 2] ++ [q 3])
   = spec_params_dict config_two [q 1; q 2]
   ∧ f_matrix maplike_two ([q 1; q 2] ++ [q 3])
     = f_matrix maplike_two [q 1; q 2])
  ∧ spec_params_dict config_two [q 1] !! "beta_d" = None.
Proof.
  split.
  - apply (f_matrix_pairing_truncates maplike_two [q 1; q 2]).
    simpl. lia.
  - apply (f_matrix_pairing_truncates maplike_two [q 1]).
    + by_evaluation.
    + by_evaluation.
    + reflexivity.
Defined.

(** ** The region generator *)

Lemma yield_each_Ok {A B} (f : A → result B) (g : A → B) xs :
  Forall (λ x, f x = Ok (g x)) xs → yield_each f xs = Gen (map g xs) None.
Proof.
  induction 1 as [|x xs Hx _ IH]; [done|]. simpl. by rewrite Hx, IH.
Qed.

Lemma yield_each_raised {A B} (f : A → result B) xs err :
  raised (yield_each f xs) = Some err → ∃ x, x ∈ xs ∧ f x = Err err.
Proof.
  induction xs as [|x xs IH]; [done|]. simpl.
  destruct (f x) as [b|err'] eqn:Hx; simpl.
  - intros (y & Hy & Hf)%IH. exists y. split; [by right|done].
  - intros [= <-]. exists x. split; [by left|done].
Qed.

Lemma map_result_Ok {A B} (f : A → result B) (g : A → B) xs :
  Forall (λ x, f x = Ok (g x)) xs → map_result f xs = Ok (map g xs).
Proof.
  induction 1 as [|x xs Hx _ IH]; [done|]. simpl. by rewrite Hx, IH.
Qed.

Lemma map_result_Err {A B} (f : A → result B) xs err :
  map_result f xs = Err err → ∃ x, x ∈ xs ∧ f x = Err err.
Proof.
  induction xs as [|x xs IH]; [done|]. simpl.
  destruct (f x) as [b|err'] eqn:Hx; simpl.
  - destruct (map_result f xs) as [bs|err'']; [done|]. simpl.
    intros [= <-]. destruct (IH eq_refl) as (y & Hy & Hf).
    exists y. split; [by right|done].
  - intros [= <-]. exists x. split; [by left|done].
Qed.

Lemma take_pixels_Ok (a : array3) (inds : list Z) :
  Forall (λ i, 0 ≤ i < Z.of_nat (shape3 a).2)%Z inds →
  take_pixels a inds = Ok (pixels_at a inds).
Proof.
  intros Hin. unfold take_pixels, pixels_at.
  destruct (shape3 a) as [[nf np] npix]. simpl in Hin.
  rewrite (map_result_Ok _ Z.to_nat).
  - rewrite bind_Ok, length_map. do 2 f_equal.
    apply map_ext. intros rows. apply map_ext. intros r.
    by rewrite map_map.
  - eapply Forall_impl; [exact Hin|]. intros i Hi. unfold norm_index.
    by rewrite decide_True.
Qed.

Lemma take_pixels_Err (a : array3) (inds : list Z) err :
  take_pixels a inds = Err err → err = IndexError.
Proof.
  unfold take_pixels. destruct (shape3 a) as [[nf np] npix].
  destruct (map_result _ inds) as [js|err'] eqn:Hjs; [done|].
  intros [= <-]. apply map_result_Err in Hjs as (i & _ & Hi).
  unfold norm_index in Hi. repeat case_decide; by simplify_eq.
Qed.

Lemma range_elem (a b x : Z) : x ∈ range a b ↔ (a ≤ x < b)%Z.
Proof. unfold range. rewrite elem_of_seqZ. lia. Qed.

Lemma range_split (a b c : Z) :
  (a ≤ b ≤ c)%Z → range a c = range a b ++ range b c.
Proof.
  intros H. unfold range.
  replace (c - a)%Z with ((b - a) + (c - b))%Z by lia.
  rewrite seqZ_app by lia. do 2 f_equal. lia.
Qed.

Lemma range_0_S (n : nat) :
  range 0 (Z.of_nat (S n)) = range 0 (Z.of_nat n) ++ [Z.of_nat n].
Proof. unfold range. by rewrite !Z.sub_0_r, seqZ_S. Qed.

(** Consecutive groups of [sub] indices make up one range. *)
Lemma concat_groups (sub : Z) (n : nat) :
  (0 ≤ sub)%Z →
  concat (map (λ i, range (i * sub) ((i + 1) * sub)) (range 0 (Z.of_nat n)))
  = range 0 (Z.of_nat n * sub).
Proof.
  intros Hsub. induction n as [|n IH]; [done|].
  rewrite range_0_S, map_app, concat_app, IH. simpl. rewrite app_nil_r.
  rewrite (range_split 0 (Z.of_nat n * sub) (Z.of_nat (S n) * sub)) by nia.
  do 2 f_equal; lia.
Qed.

Lemma sweep_regions_concat (self : MapLike) :
  (0 ≤ npix_spec self)%Z → (0 ≤ group_size self)%Z →
  concat (sweep_regions self)
  = map (hp.nest2ring (nside_base self))
        (range 0 (npix_spec self * group_size self)).
Proof.
  intros Hn Hsub. unfold sweep_regions, region_of, region_inds.
  rewrite <- (map_map (λ i, range (i * group_size self)
                              ((i + 1) * group_size self))
                      (map (hp.nest2ring (nside_base self)))).
  rewrite <- concat_map. f_equal.
  rewrite <- (Z2Nat.id (npix_spec self)) by done.
  by apply concat_groups.
Qed.

Lemma npix_nonneg (nside : Z) : (0 ≤ hp.nside2npix nside)%Z.
Proof. unfold hp.nside2npix. nia. Qed.

Lemma group_size_bounds (self : MapLike) :
  (0 < npix_spec self)%Z →
  (0 ≤ group_size self
   ∧ npix_spec self * group_size self ≤ npix_base self)%Z.
Proof.
  intros Hpos. unfold group_size.
  pose proof (npix_nonneg (nside_base self)) as Hb. fold (npix_base self) in Hb.
  rewrite Z.quot_div_nonneg by lia. split.
  - apply Z.div_pos; lia.
  - apply Z.mul_div_le. lia.
Qed.

(** A full sweep over maps stored on the base pixels: one group per
    region, in the order of the regions, and no exception. *)
Lemma full_sweep_spec (self : MapLike) :
  (0 < npix_spec self)%Z → data_on_base self →
  nest2ring_in_range (nside_base self) →
  split_data self PyNone
  = Gen (map (λ i, (pixels_at (data_mean self) (region_of self i),
                    pixels_at (data_vars self) (region_of self i)))
             (range 0 (npix_spec self)))
        None.
Proof.
  intros Hpos [Hm Hv] Hring.
  destruct (group_size_bounds self Hpos) as [Hsub Hle].
  unfold split_data. fold (npix_spec self) (npix_base self).
  unfold int_div. rewrite decide_False by lia. fold (group_size self).
  apply yield_each_Ok. apply Forall_forall. intros i Hi.
  apply range_elem in Hi. fold (region_of self i).
  assert (Forall (λ p, 0 ≤ p < npix_base self)%Z (region_of self i)) as Hin.
  { unfold region_of, region_inds. rewrite List.Forall_map.
    apply Forall_forall. intros p Hp. apply range_elem in Hp.
    apply (proj1 (Forall_forall _ _) Hring). apply range_elem.
    fold (npix_base self). nia. }
  rewrite (take_pixels_Ok (data_mean self)), (take_pixels_Ok (data_vars self));
    [done|rewrite Hv|rewrite Hm];
    (eapply Forall_impl; [exact Hin|]; simpl; lia).
Qed.

Lemma permutes_in_range (nside : Z) :
  nest2ring_permutes nside → nest2ring_in_range nside.
Proof.
  unfold nest2ring_permutes. intros Hperm. apply Forall_forall. intros p Hp.
  apply range_elem. rewrite <- Hperm.
  by apply (list_elem_of_fmap_2 (hp.nest2ring nside)).
Qed.

Lemma npix_spec_nonzero (self : MapLike) :
  nside_spec (config self) ≠ 0%Z → (0 < npix_spec self)%Z.
Proof. unfold npix_spec, hp.nside2npix. nia. Qed.

Lemma length_range (a b : Z) : length (range a b) = Z.to_nat (b - a).
Proof. unfold range. apply length_seqZ. Qed.

Lemma length_region_of (self : MapLike) (i : Z) :
  length (region_of self i) = Z.to_nat (group_size self).
Proof.
  unfold region_of, region_inds. rewrite length_map, length_range.
  f_equal. lia.
Qed.

(** C2.  When the region pixel count divides the base pixel count (neither
    being zero), the maps are stored on the base pixels and [nest2ring]
    permutes the pixel indices of the base resolution, a full sweep of
    [split_data]
    raises nothing and yields one group per region in ascending order of
    the region index, the group of region [i] holding the data at the
    pixels of region [i]; the pixel indices of all groups together are the
    base pixel indices, each exactly once; and when the two resolutions are
    equal every group has exactly one pixel. *)
Theorem split_data_full_sweep_partitions (self : MapLike) :
  (0 < npix_spec self)%Z →
  (0 < npix_base self)%Z →
  (npix_spec self | npix_base self)%Z →
  data_on_base self →
  nest2ring_permutes (nside_base self) →
  split_data self PyNone
  = Gen (map (λ i, (pixels_at (data_mean self) (region_of self i),
                    pixels_at (data_vars self) (region_of self i)))
             (range 0 (npix_spec self)))
        None
  ∧ length (yielded (split_data self PyNone)) = Z.to_nat (npix_spec self)
  ∧ concat (sweep_regions self) ≡ₚ range 0 (npix_base self)
  ∧ NoDup (concat (sweep_regions self))
  ∧ (nside_spec (config self) = nside_base self →
     Forall (λ g, length g = 1%nat) (sweep_regions self)).
Proof.
  intros Hpos _ Hdiv Hdata Hperm.
  pose proof (full_sweep_spec self Hpos Hdata (permutes_in_range _ Hperm))
    as Hsweep.
  destruct (group_size_bounds self Hpos) as [Hsub _].
  assert (npix_spec self * group_size self = npix_base self)%Z as Hexact.
  { unfold group_size.
    pose proof (npix_nonneg (nside_base self)) as Hb.
    fold (npix_base self) in Hb.
    rewrite Z.quot_div_nonneg by lia.
    destruct Hdiv as [k Hk]. rewrite Hk, Z.div_mul by lia. lia. }
  assert (concat (sweep_regions self) ≡ₚ range 0 (npix_base self)) as Hcat.
  { rewrite sweep_regions_concat, Hexact by lia. exact Hperm. }
  split_and!.
  - exact Hsweep.
  - rewrite Hsweep. simpl. rewrite length_map, length_range. f_equal. lia.
  - exact Hcat.
  - rewrite Hcat. apply NoDup_seqZ.
  - intros Hsame. unfold sweep_regions. rewrite List.Forall_map.
    apply Forall_forall. intros i _. rewrite length_region_of.
    unfold group_size, npix_base. rewrite <- Hsame. fold (npix_spec self).
    rewrite Z.quot_same by lia. done.
Qed.

Lemma split_data_full_sweep_partitions_witness :
  split_data maplike_grid PyNone
  = Gen (map (λ i, (pixels_at (data_mean maplike_grid) (region_of maplike_grid i),
                    pixels_at (data_vars maplike_grid) (region_of maplike_grid i)))
             (range 0 (npix_spec maplike_grid)))
        None
  ∧ length (yielded (split_data maplike_grid PyNone))
    = Z.to_nat (npix_spec maplike_grid)
  ∧ concat (sweep_regions maplike_grid) ≡ₚ range 0 (npix_base maplike_grid)
  ∧ NoDup (concat (sweep_regions maplike_grid))
  ∧ (nside_spec (config maplike_grid) = nside_base maplike_grid →
     Forall (λ g, length g = 1%nat) (sweep_regions maplike_grid)).
Proof.
  apply (split_data_full_sweep_partitions maplike_grid).
  - reflexivity.
  - reflexivity.
  - exists 16%Z. reflexivity.
  - split; reflexivity.
  - unfold nest2ring_permutes. by_evaluation.
Defined.

(** At the resolutions 1, 2, 4 and 8 [nest2ring] does permute the pixel
    indices. *)
Lemma nest2ring_permutes_small :
  nest2ring_permutes 1 ∧ nest2ring_permutes 2 ∧ nest2ring_permutes 4
  ∧ nest2ring_permutes 8.
Proof. unfold nest2ring_permutes. split_and!; by_evaluation. Qed.





(** C10.  At a region resolution that is not zero, a selection that is
    not [None] and is an instance neither of [int] nor of [list] (a tuple,
    a range, a NumPy integer) leaves the local [ipixs] unbound: iterating
    the generator raises [UnboundLocalError] and nothing is yielded. *)
Theorem split_data_unbound_selection (self : MapLike) (ipix : pyval) :
  nside_spec (config self) ≠ 0%Z →
  ipix ≠ PyNone →
  isinstance_int ipix = None →
  isinstance_list ipix = None →
  split_data self ipix = Gen [] (Some (UnboundLocalError "ipixs"))
  ∧ (∀ items start stop z,
       split_data self (PyTuple items)
       = Gen [] (Some (UnboundLocalError "ipixs"))
       ∧ split_data self (PyRange start stop)
         = Gen [] (Some (UnboundLocalError "ipixs"))
       ∧ split_data self (NpInt64 z)
         = Gen [] (Some (UnboundLocalError "ipixs"))).
Proof.
  intros Hspec Hnone Hint Hlist.
  apply npix_spec_nonzero in Hspec.
  assert (∀ v, v ≠ PyNone → isinstance_int v = None →
               isinstance_list v = None →
               split_data self v = Gen [] (Some (UnboundLocalError "ipixs")))
    as Hall.
  { intros v Hv Hi Hl. unfold split_data, int_div.
    fold (npix_spec self). rewrite decide_False by lia.
    destruct v; simplify_eq/=; done. }
  split; [by apply Hall|].
  intros items start stop z. split_and!; by apply Hall.
Qed.

Lemma split_data_unbound_selection_witness :
  split_data maplike_grid (PyTuple [0; 1]%Z)
  = Gen [] (Some (UnboundLocalError "ipixs"))
  ∧ (∀ items start stop z,
       split_data maplike_grid (PyTuple items)
       = Gen [] (Some (UnboundLocalError "ipixs"))
       ∧ split_data maplike_grid (PyRange start stop)
         = Gen [] (Some (UnboundLocalError "ipixs"))
       ∧ split_data maplike_grid (NpInt64 z)
         = Gen [] (Some (UnboundLocalError "ipixs"))).
Proof.
  apply (split_data_unbound_selection maplike_grid (PyTuple [0; 1]%Z)).
  - discriminate.
  - discriminate.
  - reflexivity.
  - reflexivity.
Defined.

(** * Further properties of the code *)

(** ** Finite sums *)






Lemma sum_nonneg n : ∀ f : nat → Qc,
  (∀ i, (i < n)%nat → 0 ≤ f i) → 0 ≤ sum n f.
Proof.
  induction n as [|n IH]; intros f Hf.
  - unfold sum. simpl. apply Qcle_refl.
  - rewrite sum_S. apply Qcplus_nonneg_nonneg; [apply Hf; lia|].
    apply IH. intros i Hi. apply Hf. lia.
Qed.

Lemma square_nonneg (x : Qc) : 0 ≤ x * x.
Proof.
  destruct (Qclt_le_dec x 0) as [Hneg|Hpos].
  - replace (x * x) with ((- x) * (- x)) by ring.
    assert (0 ≤ - x) as H.
    { apply Qclt_le_weak in Hneg. apply Qcopp_le_compat in Hneg.
      by replace (- 0) with 0 in Hneg by ring. }
    by apply Qcmult_nonneg_nonneg.
  - by apply Qcmult_nonneg_nonneg.
Qed.




(** ** The information matrix *)


Lemma covariance_slices (self : MapLike) (n_ivar_map F : array3)
    (spec_params : list Qc) (f_matrix_arg : option array3) (A : array4)
    (nc np nf nx : nat) :
  or_compute f_matrix_arg (f_matrix self spec_params) = Ok F →
  shape3 F = (nc, np, nf) →
  shape3 n_ivar_map = (nf, np, nx) →
  get_amplitude_covariance self n_ivar_map spec_params f_matrix_arg = Ok A →
  shape4 A = (np, nx, nc, nc)
  ∧ ∀ i l, (i < np)%nat → (l < nx)%nat →
      slice4 A i l = info_matrix F n_ivar_map i l.
Proof.
  intros HF Hs Hn HA.
  pose proof (get_amplitude_covariance_given self n_ivar_map F spec_params
                nc np nf nx Hs Hn) as Hcov.
  assert (A = covariance_of F n_ivar_map) as ->.
  { revert HA Hcov. unfold get_amplitude_covariance. simpl or_compute.
    rewrite HF. intros -> [= <-]. done. }
  unfold covariance_of. rewrite Hs, Hn. split; [done|].
  intros i l Hi Hl. by tab_entry.
Qed.

(** X1.  The covariance inverse that [get_amplitude_covariance] returns is
    symmetric in its two component indices, at every polarization and
    pixel. *)
Theorem get_amplitude_covariance_symmetric
    (self : MapLike) (n_ivar_map F : array3) (spec_params : list Qc)
    (f_matrix_arg : option array3) (A : array4) (nc np nf nx : nat) :
  or_compute f_matrix_arg (f_matrix self spec_params) = Ok F →
  shape3 F = (nc, np, nf) →
  shape3 n_ivar_map = (nf, np, nx) →
  get_amplitude_covariance self n_ivar_map spec_params f_matrix_arg = Ok A →
  ∀ i l j k, (i < np)%nat → (l < nx)%nat → (j < nc)%nat → (k < nc)%nat →
    at4 A i l j k = at4 A i l k j.
Proof.
  intros HF Hs Hn HA i l j k Hi Hl Hj Hk.
  destruct (covariance_slices self n_ivar_map F spec_params f_matrix_arg A
              nc np nf nx HF Hs Hn HA) as [_ Hsl].
  change (at4 A i l j k) with (get1 (nth j (slice4 A i l) []) k).
  change (at4 A i l k j) with (get1 (nth k (slice4 A i l) []) j).
  rewrite Hsl by done. unfold info_matrix. rewrite Hs.
  unfold get1. rewrite !nth_tab by lia.
  apply sum_ext. intros f Hf. ring.
Qed.

Lemma get_amplitude_covariance_symmetric_witness :
  let A := Array4 (1, 2, 2, 2)%nat
             [[[[q 4; q 9]; [q 9; q 23]]; [[q 4; q 7]; [q 7; q 15]]]] in
  at4 A 0 1 0 1 = at4 A 0 1 1 0.
Proof.
  intros A.
  apply (get_amplitude_covariance_symmetric maplike_line line_n line_F
           [] None A 2 1 3 2); try reflexivity; lia.
Defined.

Lemma weighted_square_nonneg (n r : Qc) : 0 ≤ n → 0 ≤ r * n * r.
Proof.
  intros Hn. replace (r * n * r) with (n * (r * r)) by ring.
  apply Qcmult_nonneg_nonneg; [done|apply square_nonneg].
Qed.



(** X3.  With inverse noise variances that are not negative, whatever
    [chi2] returns is not negative. *)
Theorem chi2_nonneg
    (self : MapLike) (spec_params : list Qc) (d_map n_ivar_map : array3)
    (f_matrix_arg : option array3) (nf np nx : nat) (c : Qc) :
  shape3 n_ivar_map = (nf, np, nx) →
  (∀ k j l, (k < nf)%nat → (j < np)%nat → (l < nx)%nat →
     0 ≤ at3 n_ivar_map k j l) →
  chi2 self spec_params d_map n_ivar_map f_matrix_arg = Ok c →
  0 ≤ c.
Proof.
  intros Hn Hpos. unfold chi2.
  destruct (or_compute _ _) as [F|]; [|done]. rewrite bind_Ok.
  destruct (get_amplitude_mean _ _ _ _ _ _) as [T|]; [|done].
  rewrite bind_Ok.
  destruct (einsum_ijk_jli_kjl F T) as [proj|]; [|done]. rewrite bind_Ok.
  destruct (sub3 d_map proj) as [res|]; [|done]. rewrite bind_Ok. cbv zeta.
  unfold einsum_ijk_ijk_ijk. destruct (shape3 res) as [[ni nj] nk].
  case_decide as Hsh; [|done]. destruct Hsh as [Hsh _].
  rewrite Hn in Hsh. injection Hsh as <- <- <-. intros [= <-].
  apply sum_nonneg; intros k Hk. apply sum_nonneg; intros j Hj.
  apply sum_nonneg; intros l Hl. apply weighted_square_nonneg.
  by apply Hpos.
Qed.

Lemma chi2_nonneg_witness : 0 ≤ q 8 / q 3.
Proof.
  apply (chi2_nonneg maplike_ones [] (col3 2 2 4) (col3 1 1 1) None 3 1 1).
  - reflexivity.
  - intros k j l Hk Hj Hl.
    destruct k as [|[|[|k]]], j as [|j], l as [|l]; try lia; by_evaluation.
  - by_evaluation.
Defined.

(** ** The estimate and the statistics together *)


(** What the estimator's result satisfies, slice by slice. *)
Lemma amplitude_mean_slices
    (self : MapLike) (d_map n_ivar_map F T : array3) (spec_params : list Qc)
    (nc np nf nx : nat) :
  f_matrix self spec_params = Ok F →
  shape3 F = (nc, np, nf) →
  shape3 d_map = (nf, np, nx) →
  shape3 n_ivar_map = (nf, np, nx) →
  get_amplitude_mean self d_map n_ivar_map spec_params None None = Ok T →
  shape3 T = (np, nx, nc) ∧ wf3 T
  ∧ ∀ i l, (i < np)%nat → (l < nx)%nat →
      length (slice3 T i l) = nc
      ∧ the_solution nc (info_matrix F n_ivar_map i l)
          (weighted_data F n_ivar_map d_map i l) (slice3 T i l).
Proof.
  intros HF Hs Hd Hn HT.
  destruct (amplitude_mean_spec self d_map n_ivar_map F
              spec_params None nc np nf nx HF Hs Hd Hn)
    as (A & HA & HshA & Hslice & Hmean).
  rewrite HT in Hmean. destruct Hmean as (Hsh & Hwf & Hsol).
  split_and!; [done..|]. intros i l Hi Hl. split.
  - unfold wf3 in Hwf. rewrite Hsh in Hwf. destruct Hwf as [Hl1 Hall].
    pose proof (proj1 (Forall_nth _ [] _) Hall i ltac:(lia)) as [Hl2 Hall2].
    apply (proj1 (Forall_nth _ [] _) Hall2 l). lia.
  - rewrite <- Hslice by done. by apply Hsol.
Qed.









(** ** Arrays by their slices *)


(** ** Pixels are estimated independently *)

Lemma dot_add_r (r x v : rows1) :
  length r = length x → length x = length v →
  dot r (zip_with Qcplus x v) = dot r x + dot r v.
Proof.
  revert x v. induction r as [|a r IH]; intros [|b x] [|c v] H1 H2;
    simplify_eq/=; try (unfold dot; simpl; ring).
  rewrite !dot_cons, IH by done. ring.
Qed.

Lemma zip_with_plus_id (x v : rows1) :
  length x = length v → zip_with Qcplus x v = x →
  v = replicate (length v) 0.
Proof.
  revert v. induction x as [|a x IH]; intros [|c v] Hlen Heq;
    simplify_eq/=; [done|].
  f_equal; [|by apply IH].
  apply (inj (Qcplus a)). rewrite H. ring.
Qed.

(** A system with exactly one solution has no singular matrix. *)
Lemma solution_not_singular (n : nat) (m : rows2) (b x : rows1) :
  Forall (rect1 n) m → length x = n →
  the_solution n m b x → ¬ singular n m.
Proof.
  intros Hrows Hx [Hsol Huniq] (v & Hv & Hnz & Hkill).
  assert (zip_with Qcplus x v = x) as Hsame.
  { apply Huniq; [rewrite length_zip_with; lia|].
    rewrite <- Hsol. unfold mat_vec in *. apply map_ext_in. intros r Hr.
    apply list_elem_of_In in Hr.
    rewrite dot_add_r.
    - assert (dot r v = 0) as ->; [|ring].
      apply list_elem_of_lookup in Hr as [i Hi].
      assert (map (λ r, dot r v) m !! i = Some (dot r v)) as Hi'
        by (by rewrite list_lookup_fmap, Hi).
      rewrite Hkill in Hi'. by apply lookup_replicate in Hi' as [-> _].
    - rewrite Hx. by apply (proj1 (Forall_forall _ _) Hrows).
    - lia. }
  apply zip_with_plus_id in Hsame; [|lia]. rewrite Hv in Hsame. done.
Qed.

Lemma info_matrix_local (F n1 n2 : array3) (nc np nf : nat) (i l1 l2 : nat) :
  shape3 F = (nc, np, nf) →
  (∀ k, (k < nf)%nat → at3 n1 k i l1 = at3 n2 k i l2) →
  info_matrix F n1 i l1 = info_matrix F n2 i l2.
Proof.
  intros Hs Hn. unfold info_matrix. rewrite Hs.
  apply tab_ext; intros j Hj. apply tab_ext; intros k Hk.
  apply sum_ext; intros f Hf. by rewrite Hn.
Qed.

Lemma weighted_data_local (F n1 n2 d1 d2 : array3) (nc np nf : nat)
    (i l1 l2 : nat) :
  shape3 F = (nc, np, nf) →
  (∀ k, (k < nf)%nat → at3 n1 k i l1 = at3 n2 k i l2) →
  (∀ k, (k < nf)%nat → at3 d1 k i l1 = at3 d2 k i l2) →
  weighted_data F n1 d1 i l1 = weighted_data F n2 d2 i l2.
Proof.
  intros Hs Hn Hd. unfold weighted_data. rewrite Hs.
  apply tab_ext; intros j Hj. apply sum_ext; intros k Hk.
  by rewrite Hn, Hd.
Qed.

Lemma amplitude_slices_agree
    (self : MapLike) (spec_params : list Qc)
    (d1 n1 d2 n2 F T1 T2 : array3) (nc np nf nx1 nx2 : nat)
    (i l1 l2 : nat) :
  f_matrix self spec_params = Ok F →
  shape3 F = (nc, np, nf) →
  shape3 d1 = (nf, np, nx1) → shape3 n1 = (nf, np, nx1) →
  shape3 d2 = (nf, np, nx2) → shape3 n2 = (nf, np, nx2) →
  (i < np)%nat → (l1 < nx1)%nat → (l2 < nx2)%nat →
  (∀ k, (k < nf)%nat → at3 d1 k i l1 = at3 d2 k i l2) →
  (∀ k, (k < nf)%nat → at3 n1 k i l1 = at3 n2 k i l2) →
  get_amplitude_mean self d1 n1 spec_params None None = Ok T1 →
  get_amplitude_mean self d2 n2 spec_params None None = Ok T2 →
  slice3 T1 i l1 = slice3 T2 i l2.
Proof.
  intros HF Hs Hd1 Hn1 Hd2 Hn2 Hi Hl1 Hl2 Hd Hn HT1 HT2.
  destruct (amplitude_mean_slices self d1 n1 F T1 spec_params
              nc np nf nx1 HF Hs Hd1 Hn1 HT1) as (_ & _ & Hsl1).
  destruct (amplitude_mean_slices self d2 n2 F T2 spec_params
              nc np nf nx2 HF Hs Hd2 Hn2 HT2) as (_ & _ & Hsl2).
  destruct (Hsl1 i l1 Hi Hl1) as [Hlen1 [Hsol1 _]].
  destruct (Hsl2 i l2 Hi Hl2) as [_ [_ Huniq2]].
  apply Huniq2; [done|].
  rewrite <- (info_matrix_local F n1 n2 nc np nf i l1 l2 Hs Hn).
  by rewrite <- (weighted_data_local F n1 n2 d1 d2 nc np nf i l1 l2 Hs Hn Hd).
Qed.

(** X7.  The amplitudes at one polarization and pixel depend on the data
    and the inverse variances at that polarization and pixel only: two
    calls whose maps agree there, at whatever pixel index, return the same
    amplitudes there. *)
Theorem get_amplitude_mean_pixel_by_pixel
    (self : MapLike) (spec_params : list Qc)
    (d1 n1 d2 n2 F T1 T2 : array3) (nc np nf nx1 nx2 : nat)
    (i l1 l2 : nat) :
  f_matrix self spec_params = Ok F →
  shape3 F = (nc, np, nf) →
  shape3 d1 = (nf, np, nx1) → shape3 n1 = (nf, np, nx1) →
  shape3 d2 = (nf, np, nx2) → shape3 n2 = (nf, np, nx2) →
  (i < np)%nat → (l1 < nx1)%nat → (l2 < nx2)%nat →
  (∀ k, (k < nf)%nat → at3 d1 k i l1 = at3 d2 k i l2) →
  (∀ k, (k < nf)%nat → at3 n1 k i l1 = at3 n2 k i l2) →
  get_amplitude_mean self d1 n1 spec_params None None = Ok T1 →
  get_amplitude_mean self d2 n2 spec_params None None = Ok T2 →
  slice3 T1 i l1 = slice3 T2 i l2.
Proof.
  intros HF Hs Hd1 Hn1 Hd2 Hn2 Hi Hl1 Hl2 Hd Hn HT1 HT2.
  destruct (amplitude_mean_slices self d1 n1 F T1 spec_params
              nc np nf nx1 HF Hs Hd1 Hn1 HT1) as (_ & _ & Hsl1).
  destruct (amplitude_mean_slices self d2 n2 F T2 spec_params
              nc np nf nx2 HF Hs Hd2 Hn2 HT2) as (_ & _ & Hsl2).
  destruct (Hsl1 i l1 Hi Hl1) as [Hlen1 [Hsol1 _]].
  destruct (Hsl2 i l2 Hi Hl2) as [_ [_ Huniq2]].
  apply Huniq2; [done|].
  rewrite <- (info_matrix_local F n1 n2 nc np nf i l1 l2 Hs Hn).
  by rewrite <- (weighted_data_local F n1 n2 d1 d2 nc np nf i l1 l2 Hs Hn Hd).
Qed.

Lemma get_amplitude_mean_pixel_by_pixel_witness :
  slice3 line_T 0 1 = slice3 (Array3 (1, 1, 2)%nat [[[q 0; q 1]]]) 0 0.
Proof.
  apply (get_amplitude_mean_pixel_by_pixel maplike_line []
           line_d line_n
           (Array3 (3, 1, 1)%nat [[[q 1]]; [[q 2]]; [[q 3]]])
           (Array3 (3, 1, 1)%nat [[[q 2]]; [[q 1]]; [[q 1]]])
           line_F line_T (Array3 (1, 1, 2)%nat [[[q 0; q 1]]])
           2 1 3 2 1 0 1 0); try reflexivity; try lia.
  - intros k Hk. destruct k as [|[|[|k]]]; [reflexivity..|lia].
  - intros k Hk. destruct k as [|[|[|k]]]; [reflexivity..|lia].
  - by_evaluation.
  - by_evaluation.
Defined.

(** ** Regions and the whole map *)

Lemma shape3_pixels_at (a : array3) (inds : list Z) (nf np nx : nat) :
  shape3 a = (nf, np, nx) →
  shape3 (pixels_at a inds) = (nf, np, length inds).
Proof. intros Ha. unfold pixels_at. by rewrite Ha. Qed.

Lemma at3_pixels_at (a : array3) (inds : list Z) (nf np nx : nat)
    (k i m : nat) (p : Z) :
  shape3 a = (nf, np, nx) → wf3 a →
  (k < nf)%nat → (i < np)%nat → inds !! m = Some p →
  at3 (pixels_at a inds) k i m = at3 a k i (Z.to_nat p).
Proof.
  intros Ha Hwf Hk Hi Hm. unfold wf3 in Hwf. rewrite Ha in Hwf.
  destruct Hwf as [Hl1 Hall].
  pose proof (proj1 (Forall_nth _ [] _) Hall k ltac:(lia)) as [Hl2 _].
  unfold pixels_at. rewrite Ha. unfold at3, get3, get2. simpl.
  rewrite (nth_indep _ [] (map (λ r, map (λ i0, get1 r (Z.to_nat i0)) inds)
                             [])) by (rewrite length_map; lia).
  rewrite (map_nth (map (λ r, map (λ i0, get1 r (Z.to_nat i0)) inds))).
  rewrite (nth_indep _ [] (map (λ i0, get1 [] (Z.to_nat i0)) inds))
    by (rewrite length_map; lia).
  rewrite (map_nth (λ r, map (λ i0, get1 r (Z.to_nat i0)) inds)).
  unfold get1 at 1.
  apply nth_lookup_Some. by rewrite list_lookup_fmap, Hm.
Qed.

(** Estimating on a selection of the pixels of maps that can be estimated
    as a whole. *)
Lemma selection_amplitudes
    (self : MapLike) (spec_params : list Qc) (d_map n_ivar_map F T : array3)
    (inds : list Z) (nc np nf nx : nat) :
  f_matrix self spec_params = Ok F →
  shape3 F = (nc, np, nf) →
  shape3 d_map = (nf, np, nx) → shape3 n_ivar_map = (nf, np, nx) →
  wf3 d_map → wf3 n_ivar_map →
  Forall (λ p, 0 ≤ p < Z.of_nat nx)%Z inds →
  get_amplitude_mean self d_map n_ivar_map spec_params None None = Ok T →
  ∃ Tr,
    get_amplitude_mean self (pixels_at d_map inds) (pixels_at n_ivar_map inds)
      spec_params None None = Ok Tr
    ∧ ∀ j m p, (j < np)%nat → inds !! m = Some p →
        slice3 Tr j m = slice3 T j (Z.to_nat p).
Proof.
  intros HF Hs Hd Hn Hwd Hwn Hin HT.
  pose proof (shape3_pixels_at d_map inds nf np nx Hd) as Hd'.
  pose proof (shape3_pixels_at n_ivar_map inds nf np nx Hn) as Hn'.
  assert (∀ j m p, (j < np)%nat → inds !! m = Some p →
            (m < length inds)%nat ∧ (Z.to_nat p < nx)%nat
            ∧ (∀ k, (k < nf)%nat →
                 at3 (pixels_at d_map inds) k j m = at3 d_map k j (Z.to_nat p))
            ∧ (∀ k, (k < nf)%nat →
                 at3 (pixels_at n_ivar_map inds) k j m
                 = at3 n_ivar_map k j (Z.to_nat p))) as Hat.
  { intros j m p Hj Hm. split_and!.
    - by apply lookup_lt_Some in Hm.
    - pose proof (proj1 (Forall_lookup _ _) Hin m p Hm) as Hp.
      simpl in Hp. lia.
    - intros k Hk. by apply (at3_pixels_at d_map inds nf np nx).
    - intros k Hk. by apply (at3_pixels_at n_ivar_map inds nf np nx). }
  destruct (amplitude_mean_slices self d_map n_ivar_map F T spec_params
              nc np nf nx HF Hs Hd Hn HT) as (_ & _ & Hsl).
  destruct (amplitude_mean_spec self (pixels_at d_map inds)
              (pixels_at n_ivar_map inds) F spec_params None
              nc np nf (length inds) HF Hs Hd' Hn')
    as (A & _ & _ & Hslice & Hmean).
  destruct (get_amplitude_mean self (pixels_at d_map inds) _ _ None None)
    as [Tr|err] eqn:HTr.
  - exists Tr. split; [done|]. intros j m p Hj Hm.
    destruct (Hat j m p Hj Hm) as (Hm' & Hp & Hdat & Hnat).
    apply (amplitude_slices_agree self spec_params
             (pixels_at d_map inds) (pixels_at n_ivar_map inds)
             d_map n_ivar_map F Tr T nc np nf (length inds) nx);
      done.
  - exfalso. destruct Hmean as (_ & j & m & Hj & Hm & Hsing).
    destruct (lookup_lt_is_Some_2 inds m Hm) as [p Hp].
    destruct (Hat j m p Hj Hp) as (_ & Hpx & Hdat & Hnat).
    rewrite Hslice in Hsing by done.
    rewrite (info_matrix_local F _ n_ivar_map nc np nf j m (Z.to_nat p)
               Hs Hnat) in Hsing.
    destruct (Hsl j (Z.to_nat p) Hj Hpx) as [Hlen Hsol].
    revert Hsing. eapply solution_not_singular; [|exact Hlen|exact Hsol].
    unfold info_matrix. rewrite Hs. apply Forall_tab. intros c _.
    apply length_tab.
Qed.

Lemma region_of_in_range (self : MapLike) (i : Z) :
  (0 < npix_spec self)%Z → nest2ring_in_range (nside_base self) →
  (0 ≤ i < npix_spec self)%Z →
  Forall (λ p, 0 ≤ p < npix_base self)%Z (region_of self i).
Proof.
  intros Hpos Hring Hi.
  destruct (group_size_bounds self Hpos) as [Hsub Hle].
  unfold region_of, region_inds. rewrite List.Forall_map.
  apply Forall_forall. intros p Hp. apply range_elem in Hp.
  apply (proj1 (Forall_forall _ _) Hring). apply range_elem.
  fold (npix_base self). nia.
Qed.

Lemma region_of_lookup (self : MapLike) (i : Z) (m : nat) :
  (m < Z.to_nat (group_size self))%nat →
  region_of self i !! m
  = Some (hp.nest2ring (nside_base self)
            (i * group_size self + Z.of_nat m)).
Proof.
  intros Hm. unfold region_of, region_inds, range.
  change (map ?f ?l) with (f <$> l).
  rewrite list_lookup_fmap, lookup_seqZ_lt by lia. done.
Qed.

(** X8.  Estimating region by region agrees with estimating the whole
    map: when the stored maps can be estimated as a whole, the estimate on
    the [i]-th group that a full sweep of [split_data] yields returns too,
    and its amplitudes at the [m]-th pixel of the group are the whole-map
    amplitudes at ring pixel [nest2ring(nside_base, i * nside_sub + m)]. *)
Theorem region_amplitudes_agree
    (self : MapLike) (spec_params : list Qc) (F T : array3)
    (nc np nf : nat) (i : nat) (mean vars : array3) :
  f_matrix self spec_params = Ok F →
  shape3 F = (nc, np, nf) →
  shape3 (data_mean self) = (nf, np, Z.to_nat (npix_base self)) →
  shape3 (data_vars self) = (nf, np, Z.to_nat (npix_base self)) →
  wf3 (data_mean self) → wf3 (data_vars self) →
  (0 < npix_spec self)%Z →
  nest2ring_in_range (nside_base self) →
  get_amplitude_mean self (data_mean self) (data_vars self) spec_params
    None None = Ok T →
  yielded (split_data self PyNone) !! i = Some (mean, vars) →
  ∃ Tr,
    get_amplitude_mean self mean vars spec_params None None = Ok Tr
    ∧ ∀ j m, (j < np)%nat → (m < Z.to_nat (group_size self))%nat →
        slice3 Tr j m
        = slice3 T j
            (Z.to_nat (hp.nest2ring (nside_base self)
                         (Z.of_nat i * group_size self + Z.of_nat m))).
Proof.
  intros HF Hs Hd Hn Hwd Hwn Hpos Hring HT Hi.
  assert (data_on_base self) as Hbase by (split; [by rewrite Hd|by rewrite Hn]).
  rewrite (full_sweep_spec self Hpos Hbase Hring) in Hi. simpl in Hi.
  change (map ?f ?l) with (f <$> l) in Hi.
  rewrite list_lookup_fmap in Hi.
  destruct (range 0 (npix_spec self) !! i) as [z|] eqn:Hz; [|done].
  simpl in Hi. injection Hi as <- <-.
  unfold range in Hz. apply lookup_seqZ in Hz as [-> Hz].
  rewrite Z.add_0_l.
  pose proof (npix_nonneg (nside_base self)) as Hb.
  fold (npix_base self) in Hb.
  destruct (selection_amplitudes self spec_params (data_mean self)
              (data_vars self) F T (region_of self (Z.of_nat i))
              nc np nf (Z.to_nat (npix_base self)) HF Hs Hd Hn Hwd Hwn)
    as (Tr & HTr & Hagree); [|done|].
  { rewrite Z2Nat.id by done. apply region_of_in_range; [done..|lia]. }
  exists Tr. split; [done|]. intros j m Hj Hm.
  apply Hagree; [done|]. by apply region_of_lookup.
Qed.

Lemma region_amplitudes_agree_witness :
  ∃ Tr,
    get_amplitude_mean maplike_ones
      (Array3 (3, 1, 1)%nat [[[q 2]]; [[q 2]]; [[q 2]]])
      (Array3 (3, 1, 1)%nat [[[q 1]]; [[q 1]]; [[q 1]]]) [] None None
    = Ok Tr
    ∧ ∀ j m, (j < 1)%nat → (m < Z.to_nat (group_size maplike_ones))%nat →
        slice3 Tr j m
        = slice3 (Array3 (1, 12, 1)%nat [replicate 12 [q 2]]) j
            (Z.to_nat (hp.nest2ring (nside_base maplike_ones)
                         (Z.of_nat 5 * group_size maplike_ones
                          + Z.of_nat m))).
Proof.
  apply (region_amplitudes_agree maplike_ones [] ones_F
           (Array3 (1, 12, 1)%nat [replicate 12 [q 2]]) 1 1 3 5).
  - reflexivity.
  - reflexivity.
  - reflexivity.
  - reflexivity.
  - unfold wf3. simpl. repeat constructor.
  - unfold wf3. simpl. repeat constructor.
  - reflexivity.
  - unfold nest2ring_in_range. by_evaluation.
  - by_evaluation.
  - by_evaluation.
Defined.

(** ** More on the constructor *)

(** X9.  [check_parameters] tests the overlap first: a name that is both
    fixed and variable gives the overlap message, also when the names
    differ from the model's; without overlap, a difference gives the
    mismatch message.  The outcome depends on the three sets of names
    only, not on the order or repetition of names in the lists nor on the
    fixed values. *)
Theorem check_parameters_outcomes (skymodel : SkyModel) (cfg : Config) :
  (check_parameters skymodel cfg
   = Err (ConfigError
            "Check parameter not in both fixed and variable parameters.")
   ↔ ∃ p, p ∈ fixed_names cfg ∧ p ∈ var_names cfg)
  ∧ (check_parameters skymodel cfg
     = Err (ConfigError
              "Parameter mismatch between model and MapLike configuration")
     ↔ (¬ ∃ p, p ∈ fixed_names cfg ∧ p ∈ var_names cfg)
       ∧ fixed_names cfg ∪ var_names cfg ≠ required_names skymodel)
  ∧ (∀ skymodel' cfg',
       fixed_names cfg' = fixed_names cfg →
       var_names cfg' = var_names cfg →
       required_names skymodel' = required_names skymodel →
       check_parameters skymodel' cfg' = check_parameters skymodel cfg).
Proof.
  assert (∀ s c,
    check_parameters s c
    = if decide (∃ p, p ∈ fixed_names c ∧ p ∈ var_names c)
      then Err (ConfigError
                  "Check parameter not in both fixed and variable parameters.")
      else if decide (fixed_names c ∪ var_names c = required_names s)
      then Ok ()
      else Err (ConfigError
                  "Parameter mismatch between model and MapLike configuration"))
    as Hform.
  { intros s c. unfold check_parameters.
    pose proof (check_clash c) as Hclash.
    destruct (existsb _ _).
    - rewrite decide_True; [done|]. by apply Hclash.
    - rewrite decide_False by (intros H; by apply Hclash in H).
      cbv zeta. fold (required_names s) (fixed_names c) (var_names c).
      case_bool_decide as Heq; simpl.
      + by rewrite decide_True.
      + by rewrite decide_False by (by intros ?). }
  split_and!.
  - rewrite Hform. case_decide; [done|]. split; [|done].
    by case_decide.
  - rewrite Hform. case_decide as Hov.
    + split; [done|]. by intros [? _].
    + case_decide as Heq.
      * split; [done|]. by intros [_ ?].
      * done.
  - intros s' c' Hf Hv Hr. rewrite !Hform, Hf, Hv, Hr.
    repeat case_decide; done.
Qed.

Lemma for_each_read_inv (fs : filesystem) (paths : list string) :
  ∀ log maps log',
    IO.for_each (IO.read_map fs) paths log = (Ok maps, log') →
    log' = log ++ paths ∧ Forall2 (λ p m, fs p = Ok m) paths maps.
Proof.
  induction paths as [|p paths IH]; intros log maps log' Hrun.
  - injection Hrun as <- <-. by rewrite app_nil_r.
  - simpl in Hrun. unfold IO.bind at 1, IO.read_map at 1 in Hrun.
    destruct (fs p) as [m|] eqn:Hp; [|done].
    unfold IO.bind at 1 in Hrun.
    destruct (IO.for_each _ paths (log ++ [p])) as [[ms|] l1] eqn:Hrest;
      [|done].
    injection Hrun as <- <-. destruct (IH _ _ _ Hrest) as [-> Hall].
    split; [by rewrite <- app_assoc|by constructor].
Qed.

Lemma for_each_read_Err (fs : filesystem) (paths : list string) :
  ∀ log i p err,
    paths !! i = Some p → fs p = Err err →
    (∀ j p', (j < i)%nat → paths !! j = Some p' → ∃ m, fs p' = Ok m) →
    IO.for_each (IO.read_map fs) paths log
    = (Err err, log ++ take (S i) paths).
Proof.
  induction paths as [|p0 paths IH]; intros log i p err Hi Hp Hbefore;
    [done|].
  simpl. unfold IO.bind at 1, IO.read_map at 1. destruct i as [|i].
  - simpl in Hi. injection Hi as ->. rewrite Hp. by rewrite take_0.
  - destruct (Hbefore 0%nat p0 ltac:(lia) eq_refl) as [m ->].
    unfold IO.bind at 1.
    rewrite (IH (log ++ [p0]) i p err Hi Hp).
    + by rewrite <- app_assoc.
    + intros j p' Hj Hj'. apply (Hbefore (S j) p'); [lia|done].
Qed.

Lemma np_array_inv (ms : list rows2) (a : array3) :
  np_array ms = Ok a →
  data3 a = ms ∧ wf3 a ∧ (shape3 a).1.1 = length ms.
Proof.
  unfold np_array. destruct ms as [|m ms].
  - intros [= <-]. split_and!; [done| |done]. by split.
  - set (nrow := length m). set (ncol := length (hd [] m)).
    destruct (forallb _ (m :: ms)) eqn:Hall; [|done]. intros [= <-].
    split_and!; [done| |done]. unfold wf3. simpl. split; [done|].
    apply Forall_forall. intros m' Hm'.
    apply list_elem_of_In in Hm'.
    pose proof (proj1 (forallb_forall _ _) Hall m' Hm') as Hm.
    apply andb_prop in Hm as [Hrows Hcols].
    apply bool_decide_eq_true in Hrows. split; [done|].
    apply Forall_forall. intros r Hr. apply list_elem_of_In in Hr.
    pose proof (proj1 (forallb_forall _ _) Hcols r Hr) as Hlen.
    by apply bool_decide_eq_true in Hlen.
Qed.

Lemma read_hpix_maps_inv (fs : filesystem) (paths : list string) log a log' :
  read_hpix_maps fs paths log = (Ok a, log') →
  log' = log ++ paths ∧ wf3 a ∧ (shape3 a).1.1 = length paths
  ∧ Forall2 (λ p m, fs p = Ok m) paths (data3 a).
Proof.
  unfold read_hpix_maps, IO.bind, IO.lift.
  destruct (IO.for_each _ paths log) as [[maps|] l1] eqn:Hrun; [|done].
  destruct (np_array maps) as [a'|] eqn:Ha; [|done].
  intros [= -> ->]. apply for_each_read_inv in Hrun as [-> Hall].
  apply np_array_inv in Ha as (Hdata & Hwf & Hlen).
  split_and!; [done..| |by rewrite Hdata].
  rewrite Hlen. symmetry. by eapply Forall2_length.
Qed.

Lemma npix2nside_Ok (npix nside : Z) :
  hp.npix2nside npix = Ok nside →
  (0 ≤ nside)%Z ∧ hp.nside2npix nside = npix.
Proof.
  unfold hp.npix2nside. case_decide as H; [|done]. intros [= <-].
  split; [apply Z.sqrt_nonneg|done].
Qed.

Lemma npix2nside_square (nside : Z) :
  (0 ≤ nside)%Z → hp.npix2nside (hp.nside2npix nside) = Ok nside.
Proof.
  intros Hn. unfold hp.npix2nside, hp.nside2npix.
  assert ((12 * nside * nside) / 12 = nside * nside)%Z as ->.
  { rewrite <- Z.mul_assoc, Z.mul_comm, Z.div_mul; lia. }
  cbv zeta. rewrite Z.sqrt_square by done. by rewrite decide_True.
Qed.

Lemma get_nside_Ok (npix nside : Z) :
  hp.get_nside npix = Ok nside →
  (0 ≤ nside)%Z ∧ hp.nside2npix nside = npix.
Proof.
  unfold hp.get_nside. case_decide; [done|].
  destruct (hp.npix2nside npix) as [n|] eqn:Hn; [|done].
  intros [= <-]. by apply npix2nside_Ok.
Qed.

Lemma get_nside_square (nside : Z) :
  (0 < nside)%Z → hp.get_nside (hp.nside2npix nside) = Ok nside.
Proof.
  intros Hn. unfold hp.get_nside.
  rewrite decide_False by (unfold hp.nside2npix; nia).
  by rewrite npix2nside_square by lia.
Qed.

Lemma valid_nside_pos (nside : Z) : valid_nside nside → (0 < nside)%Z.
Proof. intros (k & _ & ->). apply Z.pow_pos_nonneg; lia. Qed.

(** X10.  What a successful construction leaves: the object holds the sky
    model and the configuration it was given; exactly the mean files and
    then the variance files were read, each once and in the order of the
    paths, and the two arrays hold their maps in that order; both arrays
    are rectangular; there is at least one mean file; and [nside_base] is
    the resolution of the mean maps. *)
Theorem init_constructs
    (fs : filesystem) (cfg : Config) (skymodel : SkyModel)
    (self : MapLike) (files : list string) :
  IO.run (init fs cfg skymodel) = (Ok self, files) →
  sky self = skymodel ∧ config self = cfg
  ∧ check_parameters skymodel cfg = Ok ()
  ∧ files = fpaths_mean cfg ++ fpaths_vars cfg
  ∧ Forall2 (λ p m, fs p = Ok m) (fpaths_mean cfg) (data3 (data_mean self))
  ∧ Forall2 (λ p m, fs p = Ok m) (fpaths_vars cfg) (data3 (data_vars self))
  ∧ wf3 (data_mean self) ∧ wf3 (data_vars self)
  ∧ fpaths_mean cfg ≠ []
  ∧ (0 ≤ nside_base self)%Z
  ∧ hp.nside2npix (nside_base self) = Z.of_nat (shape3 (data_mean self)).2.
Proof.
  unfold IO.run, init, IO.bind at 1, IO.lift at 1.
  destruct (check_parameters skymodel cfg) as [[]|] eqn:Hc; [|done].
  unfold IO.bind at 1.
  destruct (read_data fs cfg []) as [[[[dm dv] ns]|] files'] eqn:Hread;
    [|done].
  unfold IO.ret. intros [= <- <-]. simpl.
  revert Hread. unfold read_data, IO.bind, IO.lift, IO.ret.
  destruct (read_hpix_maps fs (fpaths_mean cfg) []) as [[dm'|] l1] eqn:Hm;
    [|done].
  destruct (read_hpix_maps fs (fpaths_vars cfg) l1) as [[dv'|] l2] eqn:Hv;
    [|done].
  destruct (get_nside_00 dm') as [ns'|] eqn:Hns; [|done].
  intros [= -> -> -> ->].
  apply read_hpix_maps_inv in Hm as (-> & Hwm & Hlm & Hfm).
  apply read_hpix_maps_inv in Hv as (-> & Hwv & Hlv & Hfv).
  revert Hns Hlm. unfold get_nside_00.
  destruct (shape3 dm) as [[nf np] npix]. case_decide as Hz; [done|].
  intros [Hnn Hpix]%get_nside_Ok Hlm. simpl in *.
  split_and!; try done.
  intros Hnil. rewrite Hnil in Hlm. simpl in Hlm. lia.
Qed.

Lemma init_constructs_witness :
  let fs : filesystem := λ _, Ok (replicate 3 (replicate 12 (q 1))) in
  let a := Array3 (1, 3, 12)%nat [replicate 3 (replicate 12 (q 1))] in
  let self := constructed sky_dust config_dust (a, a, 1%Z) in
  sky self = sky_dust ∧ config self = config_dust
  ∧ check_parameters sky_dust config_dust = Ok ()
  ∧ ["mean_nu001.fits"; "vars_nu001.fits"]
    = fpaths_mean config_dust ++ fpaths_vars config_dust
  ∧ Forall2 (λ p m, fs p = Ok m) (fpaths_mean config_dust)
            (data3 (data_mean self))
  ∧ Forall2 (λ p m, fs p = Ok m) (fpaths_vars config_dust)
            (data3 (data_vars self))
  ∧ wf3 (data_mean self) ∧ wf3 (data_vars self)
  ∧ fpaths_mean config_dust ≠ []
  ∧ (0 ≤ nside_base self)%Z
  ∧ hp.nside2npix (nside_base self) = Z.of_nat (shape3 (data_mean self)).2.
Proof.
  intros fs a self.
  apply (init_constructs fs config_dust sky_dust self).
  vm_compute. reflexivity.
Defined.

(** X11.  [read_hpix_maps] stops at the first file that cannot be read:
    it raises that file's error, and the files after it are not opened.
    When that file is a mean file of a configuration that passes the
    parameter check, construction fails with the same error and no
    variance file is opened. *)
Theorem read_hpix_maps_first_failure
    (fs : filesystem) (paths : list string) (log : list string)
    (i : nat) (p : string) (err : exn) :
  paths !! i = Some p →
  fs p = Err err →
  (∀ j p', (j < i)%nat → paths !! j = Some p' → ∃ m, fs p' = Ok m) →
  read_hpix_maps fs paths log = (Err err, log ++ take (S i) paths)
  ∧ ∀ cfg skymodel,
      fpaths_mean cfg = paths →
      check_parameters skymodel cfg = Ok () →
      IO.run (init fs cfg skymodel) = (Err err, take (S i) paths).
Proof.
  intros Hi Hp Hbefore.
  assert (∀ log, read_hpix_maps fs paths log
                 = (Err err, log ++ take (S i) paths)) as Hread.
  { intros log0. unfold read_hpix_maps, IO.bind.
    by rewrite (for_each_read_Err fs paths log0 i p err Hi Hp Hbefore). }
  split; [apply Hread|].
  intros cfg skymodel Hpaths Hc.
  unfold IO.run, init, IO.bind at 1, IO.lift at 1. rewrite Hc.
  unfold IO.bind at 1, read_data, IO.bind at 1.
  by rewrite Hpaths, Hread.
Qed.

Lemma read_hpix_maps_first_failure_witness :
  let fs : filesystem :=
    λ p, if decide (p = "b.fits") then Err (IOError p)
         else Ok (replicate 3 (replicate 12 (q 1))) in
  read_hpix_maps fs ["a.fits"; "b.fits"; "c.fits"] []
  = (Err (IOError "b.fits"), [] ++ take 2 ["a.fits"; "b.fits"; "c.fits"])
  ∧ ∀ cfg skymodel,
      fpaths_mean cfg = ["a.fits"; "b.fits"; "c.fits"] →
      check_parameters skymodel cfg = Ok () →
      IO.run (init fs cfg skymodel)
      = (Err (IOError "b.fits"), take 2 ["a.fits"; "b.fits"; "c.fits"]).
Proof.
  intros fs.
  apply (read_hpix_maps_first_failure fs ["a.fits"; "b.fits"; "c.fits"] []
           1 "b.fits" (IOError "b.fits")).
  - reflexivity.
  - reflexivity.
  - intros j p' Hj Hp'. destruct j as [|j]; [|lia].
    injection Hp' as <-. by eexists.
Defined.

(** X12.  [read_data] takes [nside_base] from the first mean map, once
    every file has been read.  Without mean paths, indexing the empty
    array raises [IndexError], after all the variance files have been
    read.  With mean maps of [12 * nside ** 2] pixels at a resolution
    healpy accepts, it returns the two arrays and [nside], whatever the
    variance maps hold. *)
Theorem read_data_nside (fs : filesystem) (cfg : Config) :
  (∀ dv files,
     fpaths_mean cfg = [] →
     read_hpix_maps fs (fpaths_vars cfg) [] = (Ok dv, files) →
     IO.run (read_data fs cfg) = (Err IndexError, fpaths_vars cfg))
  ∧ (∀ dm dv files1 files2 nf nr npix nside,
       read_hpix_maps fs (fpaths_mean cfg) [] = (Ok dm, files1) →
       read_hpix_maps fs (fpaths_vars cfg) files1 = (Ok dv, files2) →
       shape3 dm = (nf, nr, npix) → nf ≠ 0%nat → nr ≠ 0%nat →
       valid_nside nside →
       hp.nside2npix nside = Z.of_nat npix →
       IO.run (read_data fs cfg)
       = (Ok (dm, dv, nside), fpaths_mean cfg ++ fpaths_vars cfg)).
Proof.
  split.
  - intros dv files Hnil Hv.
    unfold IO.run, read_data, IO.bind at 1. rewrite Hnil.
    change (read_hpix_maps fs [] [])
      with (Ok (Array3 (0, 0, 0)%nat []), @nil string).
    unfold IO.bind at 1. rewrite Hv.
    apply read_hpix_maps_inv in Hv as (-> & _). done.
  - intros dm dv files1 files2 nf nr npix nside Hm Hv Hs Hnf Hnr Hvalid Hpix.
    unfold IO.run, read_data, IO.bind, IO.lift, IO.ret. rewrite Hm, Hv.
    apply read_hpix_maps_inv in Hm as (-> & _).
    apply read_hpix_maps_inv in Hv as (-> & _).
    unfold get_nside_00. rewrite Hs. rewrite decide_False by lia.
    rewrite <- Hpix, get_nside_square by (by apply valid_nside_pos).
    done.
Qed.

Lemma read_data_nside_witness :
  let fs : filesystem := λ _, Ok (replicate 3 (replicate 48 (q 1))) in
  let a := Array3 (1, 3, 48)%nat [replicate 3 (replicate 48 (q 1))] in
  let no_mean :=
    {| fixed_pars := ∅; var_pars := []; nus := [q 1]; nside_spec := 1;
       fpaths_mean := []; fpaths_vars := ["vars_nu001.fits"] |} in
  IO.run (read_data fs no_mean) = (Err IndexError, ["vars_nu001.fits"])
  ∧ IO.run (read_data fs config_dust)
    = (Ok (a, a, 2%Z), ["mean_nu001.fits"; "vars_nu001.fits"]).
Proof.
  intros fs a no_mean. split.
  - apply (proj1 (read_data_nside fs no_mean) a ["vars_nu001.fits"]).
    + reflexivity.
    + vm_compute. reflexivity.
  - apply (proj2 (read_data_nside fs config_dust) a a ["mean_nu001.fits"]
             ["mean_nu001.fits"; "vars_nu001.fits"] 1%nat 3%nat 48%nat 2%Z).
    + vm_compute. reflexivity.
    + vm_compute. reflexivity.
    + reflexivity.
    + done.
    + done.
    + exists 1%nat. split; [lia|reflexivity].
    + reflexivity.
Defined.

(** ** More on the region generator *)

(** The groups of a selection of regions, in the order of the selection. *)
Lemma selection_spec (self : MapLike) (items : list Z) :
  (0 < npix_spec self)%Z → data_on_base self →
  nest2ring_in_range (nside_base self) →
  Forall (λ i, 0 ≤ i < npix_spec self)%Z items →
  yield_each (λ i,
    let inds := region_inds (nside_base self) (group_size self) i in
    mean ← take_pixels (data_mean self) inds;
    vars ← take_pixels (data_vars self) inds;
    Ok (mean, vars)) items
  = Gen (map (λ i, (pixels_at (data_mean self) (region_of self i),
                    pixels_at (data_vars self) (region_of self i)))
             items)
        None.
Proof.
  intros Hpos [Hm Hv] Hring Hitems.
  apply yield_each_Ok. eapply Forall_impl; [exact Hitems|].
  intros i Hi. cbv zeta. fold (region_of self i).
  pose proof (region_of_in_range self i Hpos Hring Hi) as Hin.
  pose proof (npix_nonneg (nside_base self)) as Hb.
  fold (npix_base self) in Hb.
  rewrite (take_pixels_Ok (data_mean self)), (take_pixels_Ok (data_vars self));
    [done|rewrite Hv|rewrite Hm];
    (eapply Forall_impl; [exact Hin|]; simpl; lia).
Qed.

Lemma split_data_unfold (self : MapLike) (ipix : pyval) :
  npix_spec self ≠ 0%Z →
  split_data self ipix
  = match match ipix with
          | PyNone => Some (range 0 (npix_spec self))
          | _ => match isinstance_list ipix with
                 | Some items => Some items
                 | None => match isinstance_int ipix with
                           | Some z => Some [z]
                           | None => None
                           end
                 end
          end with
    | None => Gen [] (Some (UnboundLocalError "ipixs"))
    | Some ipixs =>
        yield_each (λ i,
          let inds := region_inds (nside_base self) (group_size self) i in
          mean ← take_pixels (data_mean self) inds;
          vars ← take_pixels (data_vars self) inds;
          Ok (mean, vars)) ipixs
    end.
Proof.
  intros Hnz. unfold split_data, int_div. fold (npix_spec self).
  rewrite decide_False by done. fold (npix_base self) (group_size self).
  by destruct ipix.
Qed.

(** X13.  Selections.  At a base resolution healpy accepts, with groups
    of at least one pixel, region indices within [range(npix_spec)] and
    maps stored on the base pixels, a list selection yields the groups of
    the listed regions in the order of the list (repetitions included) and
    raises nothing; a single index behaves as the one-element list does;
    [True] and [False] behave as 1 and 0; and the full sweep is the
    selection of [range(npix_spec)].  Every list of indices handed to
    [nest2ring] is then not empty and lies within [range(npix_base)]. *)
Theorem split_data_selection (self : MapLike) (items : list Z) :
  valid_nside (nside_base self) →
  (0 < group_size self)%Z →
  (0 < npix_spec self)%Z →
  data_on_base self →
  nest2ring_in_range (nside_base self) →
  Forall (λ i, 0 ≤ i < npix_spec self)%Z items →
  split_data self (PyList items)
  = Gen (map (λ i, (pixels_at (data_mean self) (region_of self i),
                    pixels_at (data_vars self) (region_of self i)))
             items)
        None
  ∧ Forall (λ i, 0 ≤ i * group_size self
                 ∧ (i + 1) * group_size self ≤ npix_base self)%Z items
  ∧ (∀ i, (0 ≤ i < npix_spec self)%Z →
       split_data self (PyInt i) = split_data self (PyList [i]))
  ∧ (∀ b : bool,
       split_data self (PyBool b)
       = split_data self (PyInt (if b then 1 else 0)))
  ∧ split_data self PyNone
    = split_data self (PyList (range 0 (npix_spec self))).
Proof.
  intros _ Hsub Hpos Hbase Hring Hitems.
  assert (npix_spec self ≠ 0%Z) as Hnz by lia.
  split_and!.
  - rewrite split_data_unfold by done. simpl.
    by apply selection_spec.
  - destruct (group_size_bounds self Hpos) as [_ Hle].
    eapply Forall_impl; [exact Hitems|]. simpl. intros i Hi. nia.
  - intros i _. by rewrite !split_data_unfold.
  - intros b. by rewrite !split_data_unfold.
  - by rewrite !split_data_unfold.
Qed.

Lemma split_data_selection_witness :
  split_data maplike_grid (PyList [5; 0; 5]%Z)
  = Gen (map (λ i, (pixels_at (data_mean maplike_grid)
                      (region_of maplike_grid i),
                    pixels_at (data_vars maplike_grid)
                      (region_of maplike_grid i)))
             [5; 0; 5]%Z)
        None
  ∧ Forall (λ i, 0 ≤ i * group_size maplike_grid
                 ∧ (i + 1) * group_size maplike_grid
                   ≤ npix_base maplike_grid)%Z [5; 0; 5]%Z
  ∧ (∀ i, (0 ≤ i < npix_spec maplike_grid)%Z →
       split_data maplike_grid (PyInt i)
       = split_data maplike_grid (PyList [i]))
  ∧ (∀ b : bool,
       split_data maplike_grid (PyBool b)
       = split_data maplike_grid (PyInt (if b then 1 else 0)))
  ∧ split_data maplike_grid PyNone
    = split_data maplike_grid (PyList (range 0 (npix_spec maplike_grid))).
Proof.
  apply (split_data_selection maplike_grid [5; 0; 5]%Z).
  - exists 3%nat. split; [lia|reflexivity].
  - reflexivity.
  - reflexivity.
  - split; reflexivity.
  - unfold nest2ring_in_range. by_evaluation.
  - repeat constructor; by_evaluation.
Defined.

(** X14.  A region resolution of zero makes every call raise
    [ZeroDivisionError] before anything is yielded, whatever the
    selection; with any other region resolution [ZeroDivisionError] is
    never raised. *)
Theorem split_data_zero_resolution (self : MapLike) (ipix : pyval) :
  (nside_spec (config self) = 0%Z →
   split_data self ipix = Gen [] (Some ZeroDivisionError))
  ∧ (nside_spec (config self) ≠ 0%Z →
     raised (split_data self ipix) ≠ Some ZeroDivisionError).
Proof.
  split.
  - intros Hz. unfold split_data, int_div. rewrite Hz. done.
  - intros Hnz. apply npix_spec_nonzero in Hnz.
    rewrite split_data_unfold by lia.
    set (body := λ i : Z, _).
    assert (∀ l, raised (yield_each body l) ≠ Some ZeroDivisionError)
      as Hbody.
    { intros l (i & _ & Hi)%yield_each_raised. unfold body in Hi.
      cbv zeta in Hi.
      destruct (take_pixels (data_mean self) _) as [m|e1] eqn:H1.
      - destruct (take_pixels (data_vars self) _) as [v|e2] eqn:H2; [done|].
        apply take_pixels_Err in H2. by simplify_eq/=.
      - apply take_pixels_Err in H1. by simplify_eq/=. }
    destruct ipix;
      first [apply Hbody | apply (Hbody [_]) | by simpl].
Qed.

Lemma yield_each_complete {A B} (f : A → result B) xs :
  raised (yield_each f xs) = None →
  Forall (λ x, ∃ b, f x = Ok b) xs.
Proof.
  induction xs as [|x xs IH]; simpl; [constructor|].
  destruct (f x) as [b|e] eqn:Hx; simpl; [|done].
  intros Hr. constructor; eauto.
Qed.

Lemma yield_each_length {A B} (f : A → result B) xs :
  (length (yielded (yield_each f xs)) ≤ length xs)%nat
  ∧ (raised (yield_each f xs) ≠ None →
     (length (yielded (yield_each f xs)) < length xs)%nat).
Proof.
  induction xs as [|x xs [IH1 IH2]]; simpl; [split; [lia|done]|].
  destruct (f x) as [b|e]; simpl.
  - split; [lia|]. intros Hr. apply IH2 in Hr. lia.
  - split; [lia|]. intros _. lia.
Qed.

Lemma map_result_fails {A B} (f : A → result B) xs x e :
  x ∈ xs → f x = Err e → ∃ e', map_result f xs = Err e'.
Proof.
  intros Hin Hx. induction Hin as [x xs|x y xs Hin IH]; simpl.
  - rewrite Hx. eauto.
  - destruct (f y) as [b|e1]; simpl; [|eauto].
    destruct (IH Hx) as [e' ->]. simpl. eauto.
Qed.

(** Indexing with a pixel beyond the last axis raises [IndexError]. *)
Lemma take_pixels_beyond (a : array3) (inds : list Z) (p : Z) :
  p ∈ inds → (Z.of_nat (shape3 a).2 ≤ p)%Z →
  take_pixels a inds = Err IndexError.
Proof.
  intros Hin Hp.
  destruct (take_pixels a inds) as [b|e] eqn:Ht.
  - exfalso. unfold take_pixels in Ht.
    destruct (shape3 a) as [[nf np] nx] eqn:Hs. simpl in Hp.
    destruct (map_result_fails (norm_index nx) inds p IndexError Hin)
      as [e' He'].
    { unfold norm_index. rewrite !decide_False by lia. done. }
    rewrite He' in Ht. done.
  - by rewrite (take_pixels_Err _ _ _ Ht).
Qed.

(** Every base pixel lies in one region when the resolutions divide. *)
Lemma pixel_in_region (self : MapLike) (p : Z) :
  (0 < npix_spec self)%Z →
  (npix_spec self * group_size self = npix_base self)%Z →
  nest2ring_permutes (nside_base self) →
  (0 ≤ p < npix_base self)%Z →
  ∃ i, (0 ≤ i < npix_spec self)%Z ∧ p ∈ region_of self i.
Proof.
  intros Hspec Hdiv Hperm Hp.
  assert (p ∈ map (hp.nest2ring (nside_base self))
                  (range 0 (npix_base self))) as Hin.
  { unfold nest2ring_permutes in Hperm. fold (npix_base self) in Hperm.
    rewrite Hperm. apply range_elem. lia. }
  apply list_elem_of_fmap in Hin as (n & -> & Hn%range_elem).
  assert (0 < group_size self)%Z as Hsub by nia.
  exists (n / group_size self)%Z.
  pose proof (Z.div_mod n (group_size self) ltac:(lia)) as Hdm.
  pose proof (Z.mod_pos_bound n (group_size self) Hsub) as Hmod.
  split.
  - split; [apply Z.div_pos; lia|].
    apply Z.div_lt_upper_bound; [lia|]. nia.
  - unfold region_of, region_inds. apply list_elem_of_fmap.
    exists n. split; [done|]. apply range_elem. nia.
Qed.

(** X15.  The variance maps are never compared with the mean maps: their
    size is met only when a group is indexed.  With mean maps on the base
    pixels and resolutions that divide, a full sweep over variance maps
    with fewer entries than base pixels raises [IndexError] after fewer
    groups than there are regions; over variance maps with more entries it
    raises nothing and indexes them with the base pixels, so the entries
    past the base pixel count are never read. *)
Theorem split_data_variance_size (self : MapLike) :
  (0 < npix_spec self)%Z →
  (npix_spec self * group_size self = npix_base self)%Z →
  nest2ring_permutes (nside_base self) →
  (shape3 (data_mean self)).2 = Z.to_nat (npix_base self) →
  (((shape3 (data_vars self)).2 < Z.to_nat (npix_base self))%nat →
   raised (split_data self PyNone) = Some IndexError
   ∧ (length (yielded (split_data self PyNone))
      < Z.to_nat (npix_spec self))%nat)
  ∧ ((Z.to_nat (npix_base self) ≤ (shape3 (data_vars self)).2)%nat →
     split_data self PyNone
     = Gen (map (λ i, (pixels_at (data_mean self) (region_of self i),
                       pixels_at (data_vars self) (region_of self i)))
                (range 0 (npix_spec self)))
           None).
Proof.
  intros Hspec Hdiv Hperm Hm.
  pose proof (permutes_in_range _ Hperm) as Hring.
  rewrite split_data_unfold by lia.
  set (body := λ i : Z, _).
  split.
  - intros Hshort.
    assert (0 < npix_base self)%Z as Hbase by lia.
    destruct (pixel_in_region self (npix_base self - 1) Hspec Hdiv Hperm)
      as (i & Hi & Hin); [lia|].
    assert (body i = Err IndexError) as Hbody.
    { unfold body. cbv zeta. fold (region_of self i).
      rewrite (take_pixels_Ok (data_mean self)); last first.
      { rewrite Hm. eapply Forall_impl;
          [exact (region_of_in_range self i Hspec Hring Hi)|].
        simpl. lia. }
      rewrite (take_pixels_beyond (data_vars self) _ _ Hin) by lia.
      done. }
    assert (raised (yield_each body (range 0 (npix_spec self))) ≠ None)
      as Hraised.
    { intros Hnone%yield_each_complete.
      rewrite Forall_forall in Hnone.
      destruct (Hnone i) as [b Hb]; [apply range_elem; lia|].
      rewrite Hbody in Hb. done. }
    split.
    + destruct (raised (yield_each body _)) as [e|] eqn:Hr; [|done].
      apply yield_each_raised in Hr as (x & _ & Hx). unfold body in Hx.
      cbv zeta in Hx.
      destruct (take_pixels (data_mean self) _) as [m|e1] eqn:H1.
      * destruct (take_pixels (data_vars self) _) as [v|e2] eqn:H2;
          [done|].
        apply take_pixels_Err in H2. by simplify_eq/=.
      * apply take_pixels_Err in H1. by simplify_eq/=.
    + pose proof (yield_each_length body (range 0 (npix_spec self)))
        as [_ Hlt].
      apply Hlt in Hraised. rewrite length_range in Hraised.
      by rewrite Z.sub_0_r in Hraised.
  - intros Hlong. apply yield_each_Ok. apply Forall_forall.
    intros i Hi%range_elem. unfold body. cbv zeta.
    fold (region_of self i).
    pose proof (region_of_in_range self i Hspec Hring Hi) as Hin.
    rewrite (take_pixels_Ok (data_mean self)),
      (take_pixels_Ok (data_vars self)); [done| |].
    + eapply Forall_impl; [exact Hin|]. simpl. lia.
    + rewrite Hm. eapply Forall_impl; [exact Hin|]. simpl. lia.
Qed.

Lemma split_data_variance_size_witness :
  (raised (split_data maplike_short PyNone) = Some IndexError
   ∧ (length (yielded (split_data maplike_short PyNone))
      < Z.to_nat (npix_spec maplike_short))%nat)
  ∧ split_data maplike_long PyNone
    = Gen (map (λ i, (pixels_at (data_mean maplike_long)
                        (region_of maplike_long i),
                      pixels_at (data_vars maplike_long)
                        (region_of maplike_long i)))
               (range 0 (npix_spec maplike_long)))
          None.
Proof.
  split.
  - refine (proj1 (split_data_variance_size maplike_short _ _ _ _) _).
    + reflexivity.
    + reflexivity.
    + unfold nest2ring_permutes. by_evaluation.
    + reflexivity.
    + vm_compute. lia.
  - refine (proj2 (split_data_variance_size maplike_long _ _ _ _) _).
    + reflexivity.
    + reflexivity.
    + unfold nest2ring_permutes. by_evaluation.
    + reflexivity.
    + vm_compute. lia.
Defined.

(** ** More on the parameter dictionary *)

Lemma foldl_insert_notin (kvs : list (string * Qc)) :
  ∀ (d : gmap string Qc) p,
    p ∉ kvs.*1 → foldl (λ d kv, <[kv.1 := kv.2]> d) d kvs !! p = d !! p.
Proof.
  induction kvs as [|[k v] kvs IH]; intros d p Hp; [done|].
  simpl in *. apply not_elem_of_cons in Hp as [Hk Hp].
  rewrite IH by done. by rewrite lookup_insert_ne.
Qed.

(** The value a key ends with is the one of its last pair. *)
Lemma foldl_insert_last (kvs : list (string * Qc)) :
  ∀ (d : gmap string Qc) (i : nat) p v,
    kvs !! i = Some (p, v) →
    (∀ j, (i < j)%nat → kvs.*1 !! j ≠ Some p) →
    foldl (λ d kv, <[kv.1 := kv.2]> d) d kvs !! p = Some v.
Proof.
  induction kvs as [|[k w] kvs IH]; intros d i p v Hi Hlast; [done|].
  destruct i as [|i]; simpl in *.
  - simplify_eq. rewrite foldl_insert_notin.
    + by rewrite lookup_insert_eq.
    + intros (j & Hj)%list_elem_of_lookup_1.
      by apply (Hlast (S j)); [lia|].
  - apply (IH _ i); [done|]. intros j Hj. apply (Hlast (S j)). lia.
Qed.

Lemma dom_foldl_insert (kvs : list (string * Qc)) :
  dom (foldl (λ d kv, <[kv.1 := kv.2]> d) (∅ : gmap string Qc) kvs)
  = list_to_set kvs.*1.
Proof.
  apply set_eq. intros p.
  rewrite elem_of_dom, <- not_eq_None_Some, foldl_insert_None.
  rewrite lookup_empty, elem_of_list_to_set.
  destruct (decide (p ∈ kvs.*1)) as [Hin|Hout].
  - split; [done|]. by intros _ [_ ?].
  - split; [|done]. intros Hno. by destruct Hno.
Qed.

(** X16.  What the sky model is handed.  A fixed parameter always carries
    its configured value, whatever values are passed.  A variable
    parameter that is not fixed carries the value at the position of its
    last paired occurrence in [var_pars].  And once [check_parameters] has
    passed and at least as many values as variable names are passed, the
    dictionary holds exactly the parameters the model asks for. *)
Theorem spec_params_dict_values (cfg : Config) (vals : list Qc) :
  (∀ p v, fixed_pars cfg !! p = Some v →
     spec_params_dict cfg vals !! p = Some v)
  ∧ (∀ i p v,
       fixed_pars cfg !! p = None →
       var_pars cfg !! i = Some p → vals !! i = Some v →
       (∀ j, (i < j < length vals)%nat → var_pars cfg !! j ≠ Some p) →
       spec_params_dict cfg vals !! p = Some v)
  ∧ (∀ skymodel,
       check_parameters skymodel cfg = Ok () →
       (length (var_pars cfg) ≤ length vals)%nat →
       dom (spec_params_dict cfg vals) = required_names skymodel
       ∧ ∀ i p v, var_pars cfg !! i = Some p → vals !! i = Some v →
           NoDup (var_pars cfg) →
           spec_params_dict cfg vals !! p = Some v).
Proof.
  assert (∀ i p v,
    fixed_pars cfg !! p = None →
    var_pars cfg !! i = Some p → vals !! i = Some v →
    (∀ j, (i < j < length vals)%nat → var_pars cfg !! j ≠ Some p) →
    spec_params_dict cfg vals !! p = Some v) as Hvar.
  { intros i p v Hfix Hp Hv Hlast. unfold spec_params_dict.
    rewrite lookup_union_r by done.
    apply (foldl_insert_last _ _ i).
    - apply lookup_zip_with_Some. eauto.
    - intros j Hj. rewrite fst_zip_take, lookup_take_Some.
      intros [Hpj Hlt]. by apply (Hlast j); [lia|]. }
  split_and!.
  - intros p v Hfix. unfold spec_params_dict.
    by apply lookup_union_Some_l.
  - exact Hvar.
  - intros skymodel [Hnames Hclash]%check_parameters_Ok Hlen. split.
    + unfold spec_params_dict.
      rewrite dom_union_L, dom_foldl_insert, fst_zip_take.
      rewrite take_ge by done. exact Hnames.
    + intros i p v Hp Hv Hnodup. apply (Hvar i); [|done..|].
      * destruct (fixed_pars cfg !! p) as [w|] eqn:Hw; [|done].
        exfalso. apply Hclash. exists p. split.
        -- apply elem_of_dom. eauto.
        -- apply elem_of_list_to_set. by eapply list_elem_of_lookup_2.
      * intros j Hj Hpj.
        pose proof (NoDup_lookup _ _ _ _ Hnodup Hp Hpj). lia.
Qed.

(** ** The estimate as a least-squares fit *)










(** ** The estimate as a function of the data and of the noise *)
















(** ** Chi-squared over the regions *)








